(** * auto-contributions: the process-tree printer and the mini router

    A shallow embedding of the two programs of the repository,

    - [cpp_tutorial_9aeffd.cpp]: [getAllProcessInfo], [printProcessTree] and
      [main], which print the parent/child hierarchy of a process snapshot;
    - [ruby_guide_b966dd.rb]: the class [Router], whose registration methods
      are generated with [define_method] and whose [dispatch] looks a
      request up in a two-level hash,

    followed by the properties the specification states about them. *)

From Stdlib Require Import ZArith List String Ascii DecimalString.
From stdpp Require Import gmap strings sorting.

Local Open Scope Z_scope.

(* ===================================================================== *)
(** * Part I: the process tree (cpp_tutorial_9aeffd.cpp)                  *)
(* ===================================================================== *)

Module ProcessTree.

(** [struct ProcessInfo]. The fields are C++ [int]s; the program only
    compares pids ([==], [<]) and never computes with them, so they are
    kept as integers. *)
Record ProcessInfo := {
  pid : Z;
  ppid : Z;
  name : string;
  level : Z
}.

#[global] Instance ProcessInfo_eq_dec : EqDecision ProcessInfo.
Proof. solve_decision. Defined.

(** One line written by [printProcessTree]: the [level] argument of the
    call that wrote it and the child it describes. *)
Record Line := {
  depth : Z;
  proc : ProcessInfo
}.

#[global] Instance Line_eq_dec : EqDecision Line.
Proof. solve_decision. Defined.

(** The state of a run of the recursive printer: the lines written to
    [std::cout] so far, and whether the call returned or ran out of call
    stack before returning. *)
Inductive Run (A : Type) :=
  | Returned (out : list A)
  | StackExhausted (out : list A).
Arguments Returned {A} out.
Arguments StackExhausted {A} out.

Definition written {A} (r : Run A) : list A :=
  match r with Returned out | StackExhausted out => out end.

Definition returned {A} (r : Run A) : bool :=
  match r with Returned _ => true | StackExhausted _ => false end.

(** Sequencing of two pieces of printing code: the second one runs only
    when the first one returned. *)
Definition andThen {A} (r k : Run A) : Run A :=
  match r with
  | Returned o1 =>
      match k with
      | Returned o2 => Returned (o1 ++ o2)
      | StackExhausted o2 => StackExhausted (o1 ++ o2)
      end
  | StackExhausted o1 => StackExhausted o1
  end.

Notation "r >>> k" := (andThen r k) (at level 60, right associativity).

Definition emit {A} (x : A) : Run A := Returned [x].

Definition run_map {A B} (f : A → B) (r : Run A) : Run B :=
  match r with
  | Returned o => Returned (f <$> o)
  | StackExhausted o => StackExhausted (f <$> o)
  end.

(** [for (const auto& child : children) body(child)] *)
Fixpoint for_each {A B} (body : A → Run B) (xs : list A) : Run B :=
  match xs with
  | [] => Returned []
  | x :: xs' => body x >>> for_each body xs'
  end.

(** The order of the comparator [a->pid < b->pid]: [a] may come before
    [b] when [b->pid < a->pid] does not hold. *)
Definition pid_le (a b : ProcessInfo) : Prop := pid a ≤ pid b.

#[global] Instance pid_le_dec : RelDecision pid_le.
Proof. intros a b. unfold pid_le. apply _. Defined.

#[global] Instance pid_le_total : Total pid_le.
Proof. intros a b. unfold pid_le. lia. Qed.

#[global] Instance pid_le_trans : Transitive pid_le.
Proof. intros a b c. unfold pid_le. lia. Qed.

(** [std::sort(children.begin(), children.end(), by pid)]. The standard
    promises a permutation of the input that is ordered for the
    comparator; it promises no stability, so the relative order of two
    children with equal pids is left open. The printer is verified against
    this contract. *)
Class StdSort := {
  std_sort : list ProcessInfo → list ProcessInfo;
  std_sort_perm : ∀ l, std_sort l ≡ₚ l;
  std_sort_sorted : ∀ l, Sorted pid_le (std_sort l)
}.

(** A sort that meets the contract, used to run the model. *)
#[global] Instance merge_std_sort : StdSort := {|
  std_sort := merge_sort pid_le;
  std_sort_perm := merge_sort_Permutation pid_le;
  std_sort_sorted := Sorted_merge_sort pid_le
|}.

Section Printer.
Context `{StdSort}.

(** The children of [current_pid], as the first loop of [printProcessTree]
    collects them (in the order of [all_processes]) and [std::sort] then
    orders them. *)
Definition children_of (all_processes : list ProcessInfo) (current_pid : Z)
  : list ProcessInfo :=
  std_sort (filter (λ proc, ppid proc = current_pid) all_processes).

(** [printProcessTree(all_processes, current_pid, level)]. The recursion of
    the source has no bound of its own: [stack] is the number of nested
    calls the call stack can still hold. [level + 1] is an [int] addition
    that can only overflow at a nesting of 2^31 calls. *)
Fixpoint printProcessTree (stack : nat) (all_processes : list ProcessInfo)
    (current_pid level : Z) : Run Line :=
  match stack with
  | O => StackExhausted []
  | S stack' =>
      for_each
        (λ child,
           emit {| depth := level; proc := child |} >>>
           printProcessTree stack' all_processes (pid child) (level + 1))
        (children_of all_processes current_pid)
  end.

(** One round of the second loop of [printProcessTree]: the line of the
    child, then the call on the child. *)
Definition visit (stack : nat) (all_processes : list ProcessInfo) (level : Z)
    (child : ProcessInfo) : Run Line :=
  emit {| depth := level; proc := child |} >>>
  printProcessTree stack all_processes (pid child) (level + 1).

End Printer.

(** ** The text of a line *)

Definition show_int (n : Z) : string := NilZero.string_of_int (Z.to_int n).

(** [for (int i = 0; i < level; ++i) std::cout << "  ";] *)
Fixpoint spaces (n : nat) : string :=
  match n with
  | O => ""
  | S n' => "  " +:+ spaces n'
  end.

Definition show_line (l : Line) : string :=
  spaces (Z.to_nat (depth l)) +:+ "+-- " +:+ name (proc l)
    +:+ " (PID: " +:+ show_int (pid (proc l))
    +:+ ", PPID: " +:+ show_int (ppid (proc l)) +:+ ")".

Definition root_line : string := "Root (System) (PID: 0, PPID: 0)".

(** The rendering step of [main] (lines 121-122): the root line, then the
    tree below [root_id] starting at level 0. It is no function of its own
    in the source: [main] runs these two lines with 0 for [root_id], and
    only below its test for an empty vector (line 115). *)
Definition render `{StdSort} (stack : nat) (records : list ProcessInfo)
    (root_id : Z) : Run string :=
  emit root_line >>> run_map show_line (printProcessTree stack records root_id 0).

(** ** The process source and the entry point *)

(** What [getAllProcessInfo] finds: [/proc] cannot be opened, or it can and
    the directory scan (lines 34-70) pushes [scanned], one record for each
    numeric entry whose [stat] file was read. *)
Inductive ProcSource :=
  | ProcUnreadable
  | ProcReadable (scanned : list ProcessInfo).

(** [getAllProcessInfo()]: what it writes to [std::cerr] and the vector it
    returns. *)
Definition getAllProcessInfo (src : ProcSource) : list string * list ProcessInfo :=
  match src with
  | ProcUnreadable => (["Error: Could not open /proc directory."], [])
  | ProcReadable scanned => ([], scanned)
  end.

Inductive ExitStatus :=
  | Exit (code : Z)
  | Crashed.

Record Outcome := {
  stdout : list string;
  stderr : list string;
  status : ExitStatus
}.

Definition no_information : string :=
  "No process information retrieved. This might happen on non-Linux/macOS systems or due to permissions.".

(** [main()]. *)
Definition main `{StdSort} (stack : nat) (src : ProcSource) : Outcome :=
  let '(err, all_processes) := getAllProcessInfo src in
  let gathering := "Gathering process information..." in
  match all_processes with
  | [] =>
      {| stdout := [gathering];
         stderr := err ++ [no_information];
         status := Exit 1 |}
  | _ :: _ =>
      let building := "Building and printing process tree..." in
      match render stack all_processes 0 with
      | Returned tree =>
          {| stdout := gathering :: building :: tree;
             stderr := err;
             status := Exit 0 |}
      | StackExhausted tree =>
          {| stdout := gathering :: building :: tree;
             stderr := err;
             status := Crashed |}
      end
  end.

(** ** Parentage *)

(** [descends all root r]: the record [r] is reached from [root] by
    following the child relation (a record is a child of the pid its
    [ppid] names). *)
Inductive descends (all : list ProcessInfo) (root : Z) : ProcessInfo → Prop :=
  | descends_child r :
      r ∈ all → ppid r = root → descends all root r
  | descends_step c r :
      descends all root c → r ∈ all → ppid r = pid c → descends all root r.

(** No chain of parent references comes back to a pid it started from. *)
Definition acyclic (all : list ProcessInfo) : Prop :=
  ∀ r, ¬ descends all (pid r) r.

(** The records of the spec's worked example. *)
Definition mk (p pp : Z) (n : string) : ProcessInfo :=
  {| pid := p; ppid := pp; name := n; level := 0 |}.

Definition example_records : list ProcessInfo :=
  [mk 1 0 "init"; mk 2 1 "shell"; mk 3 1 "editor"; mk 4 2 "child"].

Definition cyclic_records : list ProcessInfo :=
  [mk 5 6 "a"; mk 6 5 "b"].

Definition twin_records : list ProcessInfo :=
  [mk 1 0 "x"; mk 1 0 "y"; mk 2 1 "c"].

Definition self_parent_records : list ProcessInfo :=
  [mk 0 0 "idle"].

(** ** Reading the output *)

(** The records whose lines were written at depth [level]: for the output
    of [printProcessTree all current_pid level], the direct children of
    [current_pid], in the order they were written. *)
Definition direct_children (level : Z) (out : list Line) : list ProcessInfo :=
  proc <$> filter (λ l, depth l = level) out.

(** How many lines of the output describe the record [r]. *)
Definition emitted (r : ProcessInfo) (out : list Line) : nat :=
  count_occ ProcessInfo_eq_dec (proc <$> out) r.

Definition pid_lt (a b : ProcessInfo) : Prop := pid a < pid b.

(** The lines the printer writes on [cyclic_records] within [n] nested
    calls, starting at [current_pid] (5 or 6): the two records in turn,
    one level deeper each time. *)
Fixpoint cycle_lines (n : nat) (current_pid level : Z) : list Line :=
  match n with
  | O => []
  | S n' =>
      let child := if decide (current_pid = 5) then mk 6 5 "b" else mk 5 6 "a" in
      {| depth := level; proc := child |} :: cycle_lines n' (pid child) (level + 1)
  end.

End ProcessTree.

(* ===================================================================== *)
(** * Part II: the router (ruby_guide_b966dd.rb)                          *)
(* ===================================================================== *)

Module Router.

(** An action block: called with no argument ([handler.call]), it returns
    the response. A block is taken by the string one call of it returns;
    what a block may do besides (keep a counter, call the router) is not
    modelled, so no statement below compares two calls of a block unless
    both are made from the same state. *)
Definition Action : Type := unit → string.

(** What a registration stores: the block given to the method, or [nil]
    when the method was called without a block. *)
Abbreviation Handler := (option Action).

(** [@routes]: HTTP method name to (path to handler). *)
Abbreviation Paths := (gmap string Handler).
Abbreviation Routes := (gmap string (gmap string Handler)).

(** [HTTP_METHODS = %i[get post put delete]], each symbol by its [to_s]. *)
Definition HTTP_METHODS : list string := ["get"; "post"; "put"; "delete"].

(** [String#upcase] is Ruby's own method, not code of the repository: the
    router is modelled over any such function. *)
Class StringUpcase := upcase : string → string.

(** [String#upcase] on ASCII text, used to run the model: the letters a-z
    are mapped to A-Z and every other character is kept. *)
Definition upcase_char (c : ascii) : ascii :=
  let n := nat_of_ascii c in
  if ((97 <=? n) && (n <=? 122))%nat then ascii_of_nat (n - 32) else c.

Fixpoint ascii_upcase (s : string) : string :=
  match s with
  | EmptyString => EmptyString
  | String c s' => String (upcase_char c) (ascii_upcase s')
  end.

#[global] Instance ascii_StringUpcase : StringUpcase := ascii_upcase.

(** [initialize]: [@routes = Hash.new { |hash, key| hash[key] = {} }]. *)
Definition initialize : Routes := ∅.

(** [@routes[key]]: reading a key of a hash built with the default block
    above. A missing key is first assigned a new empty hash, which is then
    returned; the read therefore also yields the hash as it is afterwards. *)
Definition fetch (routes : Routes) (key : string) : Paths * Routes :=
  match routes !! key with
  | Some paths => (paths, routes)
  | None => (∅, <[key := ∅]> routes)
  end.

(** The body that [define_method(method_name) do |path, &block| ... end]
    gives to the method [method_name]: what it prints and the table it
    leaves. *)
Definition define_method `{StringUpcase} (method_name : string) (path : string)
    (block : Handler) (routes : Routes) : list string * Routes :=
  let key := upcase method_name in
  let '(paths, routes') := fetch routes key in
  (["Registering " +:+ key +:+ " " +:+ path],
   <[key := <[path := block]> paths]> routes').

(** The four methods that [HTTP_METHODS.each] defines. *)
Definition get `{StringUpcase} := define_method "get".
Definition post `{StringUpcase} := define_method "post".
Definition put `{StringUpcase} := define_method "put".
Definition delete `{StringUpcase} := define_method "delete".

Record Dispatched := {
  response : string;
  printed : list string;
  routes_after : Routes
}.

Definition not_found : string := "404 Not Found".

(** [dispatch(http_method, path)], with [http_method] given by its
    [to_s]. *)
Definition dispatch `{StringUpcase} (http_method path : string)
    (routes : Routes) : Dispatched :=
  let normalized_method := upcase http_method in
  let '(paths, routes') := fetch routes normalized_method in
  match paths !! path with
  | Some (Some handler) =>
      {| response := handler ();
         printed := ["-> Matched route: " +:+ normalized_method +:+ " " +:+ path];
         routes_after := routes' |}
  | Some None | None =>
      {| response := not_found;
         printed := ["-> No route matched: " +:+ normalized_method +:+ " " +:+ path];
         routes_after := routes' |}
  end.

(** The handler a (method, path) pair resolves to in a table: the view of
    the table that [dispatch] reads. *)
Definition resolve (routes : Routes) (method path : string) : option Action :=
  match routes !! method with
  | Some paths => match paths !! path with Some h => h | None => None end
  | None => None
  end.

(** The table of the example usage (lines 95-124). *)
Definition example_routes : Routes :=
  let r := initialize in
  let r := (get "/" (Some (λ _, "Hello from the home page!")) r).2 in
  let r := (get "/about" (Some (λ _, "This is the about page, built with Ruby metaprogramming.")) r).2 in
  let r := (post "/submit" (Some (λ _, "Data received successfully via POST!")) r).2 in
  let r := (delete "/item/1" (Some (λ _, "Item 1 deleted successfully.")) r).2 in
  let r := (get "/status" (Some (λ _, "Current status: All systems nominal (GET request).")) r).2 in
  let r := (post "/status" (Some (λ _, "Attempting to update status... (POST request).")) r).2 in
  r.

End Router.

(* ===================================================================== *)
(** * Part III: the router in use                                         *)
(* ===================================================================== *)

Module RouterUse.
Import Router.

(** What a caller can do with a router once it is created: call one of
    the methods that [HTTP_METHODS.each] defined, with or without a block,
    or call [dispatch]. *)
Inductive Call :=
  | Register (method_name path : string) (block : Handler)
  | Dispatch (http_method path : string).

(** Only the four generated methods exist; any other name raises
    [NoMethodError] before the router is touched. *)
Definition defined (c : Call) : Prop :=
  match c with
  | Register method_name _ _ => method_name ∈ HTTP_METHODS
  | Dispatch _ _ => True
  end.

Definition call `{StringUpcase} (routes : Routes) (c : Call) : Routes :=
  match c with
  | Register method_name path block => (define_method method_name path block routes).2
  | Dispatch http_method path => routes_after (dispatch http_method path routes)
  end.

(** The table of a router after [Router.new] and a sequence of calls. *)
Definition after_calls `{StringUpcase} (calls : list Call) : Routes :=
  foldl call initialize calls.

(** Handlers only ever sit under the normalized name of one of the four
    methods. *)
Definition under_defined_methods `{StringUpcase} (routes : Routes) : Prop :=
  ∀ key path action, resolve routes key path = Some action →
    ∃ method_name, method_name ∈ HTTP_METHODS ∧ key = upcase method_name.

End RouterUse.

(* ===================================================================== *)
(** * Part IV: the shape of the printed tree                              *)
(* ===================================================================== *)

Module TreeShape.
Import ProcessTree.

(** Where a line [l] stands, given the lines [pre] written before it by a
    call on [current_pid] at [level]: either it is a line of the call's own
    level, for a child of [current_pid]; or some earlier line [p] is one
    level up and is the line of its parent, and every line in between is at
    least as deep as [l] (so [p] is the nearest line above [l] that is less
    indented). *)
Definition placed (current_pid level : Z) (pre : list Line) (l : Line) : Prop :=
  (depth l = level ∧ ppid (proc l) = current_pid)
  ∨ ∃ pre' p mid,
      pre = pre' ++ p :: mid
      ∧ depth l = depth p + 1
      ∧ ppid (proc l) = pid (proc p)
      ∧ Forall (λ x, depth l ≤ depth x) mid.

Definition nested_under (current_pid level : Z) (out : list Line) : Prop :=
  ∀ pre l post, out = pre ++ l :: post → placed current_pid level pre l.

End TreeShape.

(* ===================================================================== *)
(** * Part V: the scan of /proc (getAllProcessInfo, lines 34-72)          *)
(* ===================================================================== *)

Module ProcScan.
Import ProcessTree.

(** ** Characters and numbers *)

(** [::isdigit] and the white space of the classic locale, which the
    stream extractors skip (on the characters 0-127; [::isdigit] is given
    a plain [char]). *)
Definition isdigit (c : ascii) : bool :=
  let n := nat_of_ascii c in ((48 <=? n) && (n <=? 57))%nat.

Definition isspace (c : ascii) : bool :=
  let n := nat_of_ascii c in ((n =? 32) || ((9 <=? n) && (n <=? 13)))%nat.

(** [std::all_of(first, last, pred)] over the characters of a string. *)
Fixpoint all_of (pred : ascii → bool) (s : string) : bool :=
  match s with
  | EmptyString => true
  | String c s' => pred c && all_of pred s'
  end.

Definition INT_MAX : Z := 2147483647.
Definition INT_MIN : Z := -2147483648.

Definition digit (c : ascii) : Z := Z.of_nat (nat_of_ascii c) - 48.

(** The decimal digits at the front of [s], added to [acc], and what
    follows them. *)
Fixpoint read_digits (acc : Z) (s : string) : Z * string :=
  match s with
  | EmptyString => (acc, s)
  | String c s' =>
      if isdigit c then read_digits (10 * acc + digit c) s' else (acc, s)
  end.

Definition starts_with (pred : ascii → bool) (s : string) : bool :=
  match s with
  | EmptyString => false
  | String c _ => pred c
  end.

(** An integer field in base 10: an optional sign, then digits. No number
    is read when no digit follows. *)
Definition read_int (s : string) : option Z * string :=
  let '(negative, s1) :=
    match s with
    | String c s' =>
        if Ascii.eqb c "-" then (true, s')
        else if Ascii.eqb c "+" then (false, s')
        else (false, s)
    | EmptyString => (false, s)
    end in
  if starts_with isdigit s1 then
    let '(v, rest) := read_digits 0 s1 in
    (Some (if negative : bool then - v else v), rest)
  else (None, s1).

Fixpoint skipws (s : string) : string :=
  match s with
  | EmptyString => s
  | String c s' => if isspace c then skipws s' else s
  end.

(** [std::stoi(str)]: [strtol] in base 10 skips leading white space, reads
    an optional sign and digits, and ignores what follows. [None] stands
    for the exception it throws: [std::invalid_argument] when there is no
    digit to read, [std::out_of_range] when the number is no [int]. *)
Definition stoi (str : string) : option Z :=
  match read_int (skipws str) with
  | (Some v, _) => if decide (INT_MIN ≤ v ≤ INT_MAX) then Some v else None
  | (None, _) => None
  end.

(** ** Formatted extraction from a string stream *)

(** A [std::stringstream] that is only read: the characters not yet
    extracted, and whether an extraction has failed. *)
Record Stream := {
  buffer : string;
  failed : bool
}.

(** The sentry of a formatted extraction: nothing is attempted on a stream
    that has failed; otherwise white space is skipped, and reaching the end
    while skipping is a failure too. [None] is the failure. *)
Definition sentry (ss : Stream) : option string :=
  if failed ss then None
  else match skipws (buffer ss) with
       | EmptyString => None
       | String c s => Some (String c s)
       end.

Definition fail (ss : Stream) : Stream := {| buffer := buffer ss; failed := true |}.

(** [ss >> val] for an [int]. [val] is the variable before and after:
    [None] is a variable that was never assigned. When the sentry fails the
    variable is left alone; when no number can be read it is set to 0, and
    when the number is no [int] it is set to the nearest [int]; both are
    failures. *)
Definition extract_int (ss : Stream) (val : option Z) : Stream * option Z :=
  match sentry ss with
  | None => (fail ss, val)
  | Some b =>
      match read_int b with
      | (None, rest) => ({| buffer := rest; failed := true |}, Some 0)
      | (Some v, rest) =>
          if v <? INT_MIN then ({| buffer := rest; failed := true |}, Some INT_MIN)
          else if INT_MAX <? v then ({| buffer := rest; failed := true |}, Some INT_MAX)
          else ({| buffer := rest; failed := false |}, Some v)
      end
  end.

(** [ss >> val] for a [char]. *)
Definition extract_char (ss : Stream) (val : option ascii) : Stream * option ascii :=
  match sentry ss with
  | Some (String c rest) => ({| buffer := rest; failed := false |}, Some c)
  | _ => (fail ss, val)
  end.

(** The characters up to the next white space, and what follows. *)
Fixpoint read_token (s : string) : string * string :=
  match s with
  | EmptyString => (EmptyString, s)
  | String c s' =>
      if isspace c then (EmptyString, s)
      else let '(token, rest) := read_token s' in (String c token, rest)
  end.

(** [ss >> str] for a [std::string]: after the sentry there is at least
    one character to take. *)
Definition extract_string (ss : Stream) (str : string) : Stream * string :=
  match sentry ss with
  | None => (fail ss, str)
  | Some b =>
      let '(token, rest) := read_token b in
      ({| buffer := rest; failed := false |}, token)
  end.

(** [std::getline(stat_file, line)]: the characters before the first
    newline. *)
Fixpoint getline (contents : string) : string :=
  match contents with
  | EmptyString => EmptyString
  | String c s => if Ascii.eqb c "010" then EmptyString else String c (getline s)
  end.

(** ** The loop over the directory *)

(** What [readdir] returns for one entry, and what opening
    [/proc/<d_name>/stat] gives: the contents of the file, or [None] when
    it cannot be opened. *)
Record DirEntry := {
  is_dir : bool;
  d_name : string;
  stat : option string
}.

(** The condition of line 37. *)
Definition numeric_dir (entry : DirEntry) : bool :=
  is_dir entry && all_of isdigit (d_name entry).

(** What one round of the loop does. *)
Inductive Round :=
  | Skip
  | Push (info : ProcessInfo)
  | Throw
  | ReadUninitialized.

(** The body of the [while] loop (lines 36-69). [Throw] is the exception
    of [std::stoi], which nothing catches; [ReadUninitialized] is a round
    that reads [current_pid] or [ppid] although no extraction assigned
    it. *)
Definition scan_entry (entry : DirEntry) : Round :=
  if numeric_dir entry then
    match stoi (d_name entry) with
    | None => Throw
    | Some pid =>
        match stat entry with
        | None => Skip
        | Some contents =>
            let line := getline contents in
            let ss := {| buffer := line; failed := false |} in
            let '(ss, current_pid) := extract_int ss None in
            let '(ss, open_paren) := extract_char ss None in
            let '(ss, comm) := extract_string ss EmptyString in
            let '(ss, close_paren) := extract_char ss None in
            let '(ss, state) := extract_int ss None in
            let '(ss, ppid) := extract_int ss None in
            match current_pid with
            | None => ReadUninitialized
            | Some current_pid =>
                if decide (current_pid = pid) then
                  match ppid with
                  | None => ReadUninitialized
                  | Some ppid =>
                      Push {| pid := pid; ppid := ppid; name := comm; level := 0 |}
                  end
                else Skip
            end
        end
    end
  else Skip.

Inductive ScanResult :=
  | Scanned (processes : list ProcessInfo)
  | Terminated
  | Undefined.

(** The [while] loop, from the [processes] pushed so far. An exception
    that nothing catches terminates the program. *)
Fixpoint scan (entries : list DirEntry) (processes : list ProcessInfo) : ScanResult :=
  match entries with
  | [] => Scanned processes
  | entry :: entries' =>
      match scan_entry entry with
      | Skip => scan entries' processes
      | Push info => scan entries' (processes ++ [info])
      | Throw => Terminated
      | ReadUninitialized => Undefined
      end
  end.

(** The source that [getAllProcessInfo] sees, from the state of [/proc]:
    [None] when [opendir] fails, the entries otherwise. There is a source
    only when the scan runs to its end. *)
Definition source_of (proc : option (list DirEntry)) : option ProcSource :=
  match proc with
  | None => Some ProcUnreadable
  | Some entries =>
      match scan entries [] with
      | Scanned processes => Some (ProcReadable processes)
      | Terminated | Undefined => None
      end
  end.

(** The decimal number a string of digits denotes. *)
Definition number (digits : string) : Z := (read_digits 0 digits).1.

(** A field of a [stat] line that holds a number an [int] can hold, and a
    run of characters without white space. *)
Definition field (digits : string) : Prop :=
  digits ≠ EmptyString ∧ all_of isdigit digits = true ∧ number digits ≤ INT_MAX.

Definition word (s : string) : Prop :=
  all_of (λ c, negb (isspace c)) s = true.

(** The numbers that the names of the numeric directories denote, in the
    order of the directory. *)
Definition named_pids (entries : list DirEntry) : list Z :=
  omap (λ entry, if numeric_dir entry then stoi (d_name entry) else None) entries.

(** A [/proc] with two processes and two entries that are no processes. *)
Definition example_proc : list DirEntry :=
  [ {| is_dir := true; d_name := "1";
       stat := Some "1 (systemd) S 0 1 1 0 -1 4194560" |};
    {| is_dir := false; d_name := "cpuinfo"; stat := None |};
    {| is_dir := true; d_name := "self"; stat := Some "77 (cat) R 1 77 77" |};
    {| is_dir := true; d_name := "1234";
       stat := Some "1234 (bash) S 1 1234 1234 34816 1300 4194304" |} ].

End ProcScan.

(* ===================================================================== *)
(** * Properties of the process tree                                      *)
(* ===================================================================== *)

Module ProcessTreeSpec.
Import ProcessTree.

(** ** Lists *)

Lemma fmap_bind_list {A B C} (f : B → C) (g : A → list B) (l : list A) :
  f <$> (l ≫= g) = l ≫= (λ x, f <$> g x).
Proof. induction l as [|x l IH]; csimpl; [done|]. by rewrite fmap_app, IH. Qed.

(** A stronger filter keeps fewer elements, and strictly fewer when it
    drops one that the weaker filter keeps. *)
Lemma length_filter_shrinks {A} (P Q : A → Prop)
    `{∀ x, Decision (P x), ∀ x, Decision (Q x)} (l : list A) x :
  (∀ y, Q y → P y) → x ∈ l → P x → ¬ Q x →
  (length (filter Q l) < length (filter P l))%nat.
Proof.
  intros HQP Hx HP HQ. rewrite <- (list_filter_filter_l Q P) by done.
  apply length_filter_lt with x; [|done]. by apply list_elem_of_filter.
Qed.

(** A permutation of a list with two marked positions has the two marked
    elements at two positions of its own, in one order or the other. *)
Lemma Permutation_two_positions {A} (l l1 l2 l3 : list A) (r1 r2 : A) :
  l ≡ₚ l1 ++ r1 :: l2 ++ r2 :: l3 →
  ∃ a b c x y,
    l = a ++ x :: b ++ y :: c ∧ ((x = r1 ∧ y = r2) ∨ (x = r2 ∧ y = r1)).
Proof.
  intros Hp.
  assert (r1 ∈ l) as (a' & c' & ->)%list_elem_of_split
    by (rewrite Hp; set_solver).
  apply Permutation_app_inv in Hp.
  assert (r2 ∈ a' ++ c') as [Hin | Hin]%elem_of_app
    by (rewrite Hp; set_solver).
  - apply list_elem_of_split in Hin as (a & b & ->).
    exists a, b, c', r2, r1. split; [|by right].
    by rewrite <- app_assoc.
  - apply list_elem_of_split in Hin as (b & c & ->).
    exists a', b, c, r1, r2. split; [done | by left].
Qed.

Lemma prefix_StronglySorted {A} (R : relation A) (l k : list A) :
  l `prefix_of` k → StronglySorted R k → StronglySorted R l.
Proof. intros [k' ->]. apply StronglySorted_app_1_l. Qed.

(** ** Runs *)

Section Runs.
Context {A B : Type}.
Implicit Types (r k : Run A) (body : B → Run A).

Lemma andThen_Returned r k out :
  r >>> k = Returned out →
  ∃ o1 o2, r = Returned o1 ∧ k = Returned o2 ∧ out = o1 ++ o2.
Proof.
  destruct r as [o1|o1], k as [o2|o2]; simpl; intros [=]; subst. eauto.
Qed.

Lemma written_andThen r k :
  written (r >>> k) = written r ++ (if returned r then written k else []).
Proof.
  destruct r as [o1|o1], k as [o2|o2]; simpl; by rewrite ?app_nil_r.
Qed.

Lemma returned_andThen r k :
  returned (r >>> k) = returned r && returned k.
Proof. by destruct r, k. Qed.

Lemma Returned_written r : returned r = true → r = Returned (written r).
Proof. by destruct r. Qed.

(** A loop returns exactly when each of its rounds does, and then it has
    written what the rounds wrote, in order. *)
Lemma for_each_Returned body xs out :
  for_each body xs = Returned out →
  Forall (λ x, returned (body x) = true) xs ∧ out = xs ≫= (λ x, written (body x)).
Proof.
  revert out. induction xs as [|x xs IH]; simpl; intros out Hrun.
  - by injection Hrun as <-.
  - apply andThen_Returned in Hrun as (o1 & o2 & Hx & Hxs & ->).
    destruct (IH _ Hxs) as [Hall ->]. rewrite Hx. simpl. split; [|done].
    constructor; [by rewrite Hx | done].
Qed.

Lemma for_each_returned body xs :
  Forall (λ x, returned (body x) = true) xs → returned (for_each body xs) = true.
Proof.
  induction 1 as [|x xs Hx _ IH]; simpl; [done|].
  by rewrite returned_andThen, Hx, IH.
Qed.

(** Whatever a loop has written, one of its rounds wrote. *)
Lemma elem_of_written_for_each body xs l :
  l ∈ written (for_each body xs) → ∃ x, x ∈ xs ∧ l ∈ written (body x).
Proof.
  induction xs as [|x xs IH]; simpl; [by inv 1|].
  rewrite written_andThen, elem_of_app. intros [Hl | Hl].
  - exists x. split; [left | done].
  - destruct (returned (body x)); [|by inv Hl].
    destruct (IH Hl) as (y & Hy & Hly). exists y. split; [by right | done].
Qed.

Lemma for_each_returns body xs :
  Forall (λ x, returned (body x) = true) xs →
  for_each body xs = Returned (xs ≫= (λ x, written (body x))).
Proof.
  induction 1 as [|x xs Hx _ IH]; simpl; [done|].
  rewrite IH, (Returned_written _ Hx). done.
Qed.

End Runs.

(** ** Parentage *)

Section Parentage.
Implicit Types (all : list ProcessInfo) (r c : ProcessInfo).

Lemma descends_elem all a r : descends all a r → r ∈ all.
Proof. by destruct 1. Qed.

Lemma descends_trans all a c r :
  descends all a c → descends all (pid c) r → descends all a r.
Proof.
  intros Hc Hr. induction Hr as [r Hin Hpp | c' r _ IH Hin Hpp].
  - by eapply descends_step.
  - by eapply descends_step.
Qed.

(** The parent of a descendant is the root or a descendant itself. *)
Lemma descends_parent all a r :
  descends all a r → ppid r = a ∨ ∃ c, descends all a c ∧ pid c = ppid r.
Proof. destruct 1 as [r _ Hpp | c r Hc _ Hpp]; [by left | right; eauto]. Qed.

Lemma unique_pid all r1 r2 :
  NoDup (pid <$> all) → r1 ∈ all → r2 ∈ all → pid r1 = pid r2 → r1 = r2.
Proof.
  induction all as [|x all IH]; csimpl; [by inv 2|].
  rewrite NoDup_cons, !elem_of_cons, list_elem_of_fmap.
  intros [Hx Hnd] [-> | H1] [-> | H2] Heq; try done.
  - destruct Hx. eauto.
  - destruct Hx. eauto.
  - by apply IH.
Qed.

(** With unique pids a record has one line of ancestors: two pids it
    descends from lie on that line. *)
Lemma descends_comparable all a b r :
  NoDup (pid <$> all) →
  descends all a r → descends all b r →
  a = b ∨ (∃ c, descends all a c ∧ pid c = b) ∨ (∃ c, descends all b c ∧ pid c = a).
Proof.
  intros Hnd Ha. revert b.
  induction Ha as [r Hin Hpp | c r Hc IH Hin Hpp]; intros b Hb.
  - destruct (descends_parent _ _ _ Hb) as [Hb' | (c' & Hc' & Hpc)].
    + left. congruence.
    + right; right. exists c'. split; [done | congruence].
  - destruct Hb as [r _ Hb' | c' r Hc' _ Hb'].
    + right; left. exists c. split; [done | congruence].
    + assert (c = c') as <-.
      { eapply unique_pid; eauto using descends_elem. congruence. }
      by apply IH.
Qed.

(** Without cycles, a child of [cur] has no child of [cur] among its
    descendants. *)
Lemma sibling_not_descendant all cur x y :
  acyclic all → x ∈ all → ppid x = cur → ppid y = cur →
  ¬ descends all (pid x) y.
Proof.
  intros Hac Hx Hpx Hpy Hd. apply (Hac x).
  destruct (descends_parent _ _ _ Hd) as [Heq | (c & Hc & Hpc)].
  - apply descends_child; [done | congruence].
  - eapply descends_step; [exact Hc | done | congruence].
Qed.

(** Parents with smaller pids than their children rule cycles out. *)
Lemma increasing_pids_acyclic all :
  Forall (λ r, ppid r < pid r) all → acyclic all.
Proof.
  rewrite Forall_forall. intros Hlt r Hd.
  assert (Hgen : ∀ a x, descends all a x → a < pid x).
  { induction 1 as [x Hin Hpp | c x _ IH Hin Hpp].
    - specialize (Hlt _ Hin). lia.
    - specialize (Hlt _ Hin). lia. }
  specialize (Hgen _ _ Hd). lia.
Qed.

End Parentage.

(** ** The printer *)

Section Printer.
Context `{StdSort}.
Implicit Types (all : list ProcessInfo) (r c : ProcessInfo) (out : list Line).

Lemma elem_of_children_of all cur c :
  c ∈ children_of all cur ↔ c ∈ all ∧ ppid c = cur.
Proof.
  unfold children_of. rewrite (std_sort_perm _), list_elem_of_filter. tauto.
Qed.

Lemma children_of_nil cur : children_of [] cur = [].
Proof. unfold children_of. apply Permutation_nil_r, std_sort_perm. Qed.

Lemma children_of_singleton all cur c :
  filter (λ proc, ppid proc = cur) all = [c] → children_of all cur = [c].
Proof.
  intros Hf. unfold children_of. rewrite Hf.
  apply Permutation_singleton_r, std_sort_perm.
Qed.

Lemma children_of_sorted all cur : StronglySorted pid_le (children_of all cur).
Proof. apply Sorted_StronglySorted; [apply _ | apply std_sort_sorted]. Qed.

Lemma printProcessTree_S stack all cur level :
  printProcessTree (S stack) all cur level
  = for_each (visit stack all level) (children_of all cur).
Proof. reflexivity. Qed.

Lemma written_visit stack all level c :
  written (visit stack all level c)
  = {| depth := level; proc := c |}
      :: written (printProcessTree stack all (pid c) (level + 1)).
Proof. unfold visit. by rewrite written_andThen. Qed.

Lemma returned_visit stack all level c :
  returned (visit stack all level c)
  = returned (printProcessTree stack all (pid c) (level + 1)).
Proof. unfold visit. by rewrite returned_andThen. Qed.

(** A call that returned has written, for each child in sorted order, the
    child's line followed by everything the call on the child wrote. *)
Lemma printProcessTree_Returned stack all cur level out :
  printProcessTree stack all cur level = Returned out →
  ∃ stack',
    stack = S stack'
    ∧ Forall (λ c, returned (printProcessTree stack' all (pid c) (level + 1)) = true)
        (children_of all cur)
    ∧ out = children_of all cur ≫= (λ c,
              {| depth := level; proc := c |}
                :: written (printProcessTree stack' all (pid c) (level + 1))).
Proof.
  destruct stack as [|stack']; [done|]. rewrite printProcessTree_S.
  intros [Hall ->]%for_each_Returned. exists stack'. split; [done|]. split.
  - eapply Forall_impl; [exact Hall|]. intros c Hc. cbn beta in *.
    by rewrite <- returned_visit.
  - apply list_bind_ext; [|done]. intros c. apply written_visit.
Qed.

(** Every line is the line of a descendant of the pid the call was made
    on, and is at least as deep as the call. *)
Lemma written_descends stack all cur level l :
  l ∈ written (printProcessTree stack all cur level) →
  descends all cur (proc l) ∧ level ≤ depth l.
Proof.
  revert cur level. induction stack as [|stack IH]; intros cur level; [by inv 1|].
  rewrite printProcessTree_S.
  intros (c & [Hc Hpp]%elem_of_children_of & Hl)%elem_of_written_for_each.
  rewrite written_visit, elem_of_cons in Hl. destruct Hl as [-> | Hl]; simpl.
  - split; [by apply descends_child | lia].
  - destruct (IH _ _ Hl) as [Hd Hle]. split; [|lia].
    eapply descends_trans; [|exact Hd]. by apply descends_child.
Qed.

(** More call stack does not change a run that returned. *)
Lemma printProcessTree_mono stack stack' all cur level out :
  printProcessTree stack all cur level = Returned out → (stack ≤ stack')%nat →
  printProcessTree stack' all cur level = Returned out.
Proof.
  revert stack' cur level out.
  induction stack as [|stack IH]; intros stack' cur level out Hrun Hle; [done|].
  destruct stack' as [|stack']; [lia|].
  apply printProcessTree_Returned in Hrun as (s & [= <-] & Hall & ->).
  assert (Hsame : Forall (λ c,
      printProcessTree stack' all (pid c) (level + 1)
      = Returned (written (printProcessTree stack all (pid c) (level + 1))))
    (children_of all cur)).
  { eapply Forall_impl; [exact Hall|]. intros c Hc. cbn beta in *.
    apply IH; [by apply Returned_written | lia]. }
  rewrite printProcessTree_S, for_each_returns.
  - f_equal. apply Forall_bind_ext. eapply Forall_impl; [exact Hsame|].
    intros c Hc. cbn beta in *. by rewrite written_visit, Hc.
  - eapply Forall_impl; [exact Hsame|]. intros c Hc. cbn beta in *.
    by rewrite returned_visit, Hc.
Qed.

(** *** Termination *)

(** The pids on the path from the root to the current call are pairwise
    distinct when there is no cycle, and each of them is the parent of some
    record: the records whose parent is not yet on the path bound the
    depth that is left. *)
Lemma printProcessTree_returns_within all stack (path : list Z) cur level :
  acyclic all →
  (∀ a, a ∈ path → ∃ c, descends all a c ∧ pid c = cur) →
  (length (filter (λ r, ppid r ∉ path) all) < stack)%nat →
  returned (printProcessTree stack all cur level) = true.
Proof.
  intros Hac. revert path cur level.
  induction stack as [|stack IH]; intros path cur level Hpath Hlen; [lia|].
  rewrite printProcessTree_S. apply for_each_returned, Forall_forall.
  intros c [Hc Hpp]%elem_of_children_of. rewrite returned_visit.
  apply (IH (cur :: path)).
  - intros a [-> | Ha]%elem_of_cons.
    + exists c. split; [by apply descends_child | done].
    + destruct (Hpath _ Ha) as (d & Hd & Hpd). exists c. split; [|done].
      eapply descends_step; [exact Hd | done | congruence].
  - assert (cur ∉ path) as Hfresh.
    { intros (d & Hd & Hpd)%Hpath. apply (Hac d). by rewrite Hpd. }
    pose proof (length_filter_shrinks
      (λ r, ppid r ∉ path) (λ r, ppid r ∉ cur :: path) all c) as Hlt.
    cbn beta in Hlt. rewrite not_elem_of_cons in Hlt.
    assert (length (filter (λ r, ppid r ∉ cur :: path) all)
            < length (filter (λ r, ppid r ∉ path) all))%nat; [|lia].
    apply Hlt; [| done | by rewrite Hpp | ].
    + intros y. rewrite not_elem_of_cons. tauto.
    + rewrite Hpp. tauto.
Qed.

Lemma printProcessTree_returns all stack cur level :
  acyclic all → (length all < stack)%nat →
  returned (printProcessTree stack all cur level) = true.
Proof.
  intros Hac Hlen. apply printProcessTree_returns_within with (path := []).
  - done.
  - by inv 1.
  - pose proof (length_filter (λ r, ppid r ∉ []) all). lia.
Qed.

(** *** The order of the children *)

Lemma direct_children_deeper level out :
  Forall (λ l, level < depth l) out → direct_children level out = [].
Proof.
  unfold direct_children. induction 1 as [|l out Hl _ IH]; [done|].
  rewrite filter_cons_False by lia. done.
Qed.

Lemma direct_children_visit stack all level c rest :
  direct_children level (written (visit stack all level c) ++ rest)
  = c :: direct_children level rest.
Proof.
  rewrite written_visit. unfold direct_children.
  rewrite <- app_comm_cons, filter_cons_True by done.
  rewrite filter_app, fmap_cons, fmap_app. simpl. f_equal.
  fold (direct_children level (written (printProcessTree stack all (pid c) (level + 1)))).
  rewrite direct_children_deeper; [done|].
  apply Forall_forall. intros l [_ Hle]%written_descends. lia.
Qed.

(** The lines a call writes at its own level are those of its children in
    sorted order, up to where the run stopped. *)
Lemma direct_children_for_each stack all level xs :
  direct_children level (written (for_each (visit stack all level) xs))
    `prefix_of` xs
  ∧ (returned (for_each (visit stack all level) xs) = true →
     direct_children level (written (for_each (visit stack all level) xs)) = xs).
Proof.
  induction xs as [|c xs [IHp IHr]]; simpl; [done|].
  rewrite written_andThen, returned_andThen, direct_children_visit.
  destruct (returned (visit stack all level c)); simpl.
  - split; [by apply prefix_cons|]. intros Hr. f_equal. auto.
  - split; [|done]. apply prefix_cons, prefix_nil.
Qed.

Lemma direct_children_printProcessTree stack all cur level :
  direct_children level (written (printProcessTree stack all cur level))
    `prefix_of` children_of all cur
  ∧ (returned (printProcessTree stack all cur level) = true →
     direct_children level (written (printProcessTree stack all cur level))
     = children_of all cur).
Proof.
  destruct stack as [|stack]; [split; [apply prefix_nil | done]|].
  rewrite printProcessTree_S. apply direct_children_for_each.
Qed.

(** A list in pid order is in strict pid order exactly when its pids are
    pairwise distinct. *)
Lemma strictly_sorted_iff_distinct (l : list ProcessInfo) :
  StronglySorted pid_le l → (StronglySorted pid_lt l ↔ NoDup (pid <$> l)).
Proof.
  induction 1 as [|c l _ IH Hle]; csimpl.
  - split; constructor.
  - rewrite StronglySorted_cons, NoDup_cons, IH, list_elem_of_fmap.
    rewrite Forall_forall in Hle. rewrite Forall_forall.
    unfold pid_le, pid_lt in *. split.
    + intros [Hlt Hs]. split; [|done]. intros (y & Heq & Hy).
      specialize (Hlt _ Hy). lia.
    + intros [Hnot Hnd]. split; [|done]. intros y Hy.
      specialize (Hle _ Hy). assert (pid c ≠ pid y); [|lia].
      intros Heq. apply Hnot. eauto.
Qed.

(** *** What a run that returned has written *)

(** Every descendant of the root has a line, and the whole output of the
    call on it is part of the output. *)
Lemma descendant_written all r :
  ∀ cur, descends all cur r →
  ∀ stack level out, printProcessTree stack all cur level = Returned out →
  ∃ stack' level' sub,
    {| depth := level'; proc := r |} ∈ out
    ∧ printProcessTree stack' all (pid r) (level' + 1) = Returned sub
    ∧ sub ⊆ out.
Proof.
  assert (Hchild : ∀ cur r stack level out,
    r ∈ all → ppid r = cur →
    printProcessTree stack all cur level = Returned out →
    ∃ stack' sub,
      {| depth := level; proc := r |} ∈ out
      ∧ printProcessTree stack' all (pid r) (level + 1) = Returned sub
      ∧ sub ⊆ out).
  { intros cur r' stack level out Hin Hpp
      (stack' & -> & Hall & ->)%printProcessTree_Returned.
    assert (r' ∈ children_of all cur) as Hr by by apply elem_of_children_of.
    rewrite Forall_forall in Hall.
    exists stack', (written (printProcessTree stack' all (pid r') (level + 1))).
    split; [|split].
    - apply list_elem_of_bind. exists r'. split; [left | done].
    - apply Returned_written; auto.
    - intros l Hl. apply list_elem_of_bind. exists r'. split; [by right | done]. }
  intros cur Hd.
  induction Hd as [r Hin Hpp | c r Hc IH Hin Hpp]; intros stack level out Hrun.
  - destruct (Hchild _ _ _ _ _ Hin Hpp Hrun) as (stack' & sub & ?). eauto.
  - destruct (IH _ _ _ Hrun) as (stack1 & level1 & sub1 & _ & Hrun1 & Hsub1).
    destruct (Hchild _ _ _ _ _ Hin Hpp Hrun1) as (stack2 & sub2 & Hl & Hrun2 & Hsub2).
    exists stack2, (level1 + 1), sub2. split; [auto|]. split; [done|].
    intros l Hl'. auto.
Qed.

(** With unique pids and no cycle, no record has two lines. *)
Lemma printProcessTree_NoDup all stack cur level out :
  acyclic all → NoDup (pid <$> all) →
  printProcessTree stack all cur level = Returned out →
  NoDup (proc <$> out).
Proof.
  intros Hac Hnd. revert cur level out.
  induction stack as [|stack IH]; intros cur level out Hrun; [done|].
  apply printProcessTree_Returned in Hrun as (s & [= <-] & Hall & ->).
  rewrite Forall_forall in Hall. rewrite fmap_bind_list.
  assert (Hsub : ∀ c r, r ∈ proc <$> written (printProcessTree stack all (pid c) (level + 1)) →
                        descends all (pid c) r).
  { intros c r (l & -> & Hl)%list_elem_of_fmap. by apply written_descends in Hl as [? _]. }
  apply NoDup_bind.
  - intros x1 x2 r [Hx1 Hp1]%elem_of_children_of [Hx2 Hp2]%elem_of_children_of.
    csimpl. rewrite !elem_of_cons.
    intros [-> | Hr1%Hsub] [Heq | Hr2%Hsub]; [done | | | ].
    + by destruct (sibling_not_descendant all cur x2 x1).
    + subst r. by destruct (sibling_not_descendant all cur x1 x2).
    + destruct (descends_comparable _ _ _ _ Hnd Hr1 Hr2)
        as [Heq | [(c & Hc & Hpc) | (c & Hc & Hpc)]].
      * by eapply unique_pid.
      * assert (c = x2) as -> by (eapply unique_pid; eauto using descends_elem).
        by destruct (sibling_not_descendant all cur x1 x2).
      * assert (c = x1) as -> by (eapply unique_pid; eauto using descends_elem).
        by destruct (sibling_not_descendant all cur x2 x1).
  - intros c Hc. csimpl. apply NoDup_cons. split.
    + intros Hself%Hsub. by apply (Hac c).
    + apply (IH (pid c) (level + 1)), Returned_written; auto.
  - unfold children_of. rewrite (std_sort_perm _).
    apply NoDup_filter. by apply NoDup_fmap_1 in Hnd.
Qed.

Lemma emitted_positive r out : (1 ≤ emitted r out)%nat ↔ ∃ l, l ∈ out ∧ proc l = r.
Proof.
  unfold emitted.
  pose proof (count_occ_In ProcessInfo_eq_dec (proc <$> out) r) as Hc.
  unfold gt, lt in Hc. rewrite <- Hc, <- list_elem_of_In, list_elem_of_fmap.
  split; intros (l & ? & ?); exists l; by split.
Qed.

Lemma emitted_NoDup r out : NoDup (proc <$> out) → (emitted r out ≤ 1)%nat.
Proof.
  intros Hnd%NoDup_ListNoDup.
  exact (proj1 (NoDup_count_occ ProcessInfo_eq_dec _) Hnd r).
Qed.

Lemma emitted_app r o1 o2 : emitted r (o1 ++ o2) = (emitted r o1 + emitted r o2)%nat.
Proof. unfold emitted. by rewrite fmap_app, count_occ_app. Qed.

Lemma emitted_cons r l out :
  emitted r (l :: out) = ((if decide (proc l = r) then 1 else 0) + emitted r out)%nat.
Proof.
  unfold emitted. csimpl. destruct (ProcessInfo_eq_dec (proc l) r);
    [by rewrite decide_True | by rewrite decide_False].
Qed.

Lemma emitted_Permutation r o1 o2 : o1 ≡ₚ o2 → emitted r o1 = emitted r o2.
Proof.
  intros Hp. unfold emitted.
  apply (proj1 (Permutation_count_occ ProcessInfo_eq_dec _ _)). by rewrite Hp.
Qed.

(** The run of an acyclic record set: it returns within a call stack one
    deeper than the number of records, always with the same output. *)
Lemma printProcessTree_acyclic all cur level stack :
  acyclic all → (length all < stack)%nat →
  printProcessTree stack all cur level
  = Returned (written (printProcessTree (S (length all)) all cur level)).
Proof.
  intros Hac Hlen. apply printProcessTree_mono with (S (length all)); [|lia].
  apply Returned_written, printProcessTree_returns; [done | lia].
Qed.

(** *** Records that share a pid *)

Lemma duplicates_in_children all cur l1 r1 l2 r2 l3 :
  all = l1 ++ r1 :: l2 ++ r2 :: l3 → ppid r1 = cur → ppid r2 = cur →
  ∃ (a b d : list ProcessInfo) x y,
    children_of all cur = a ++ x :: b ++ y :: d
    ∧ ((x = r1 ∧ y = r2) ∨ (x = r2 ∧ y = r1)).
Proof.
  intros -> H1 H2. apply Permutation_two_positions with
    (l1 := filter (λ proc, ppid proc = cur) l1)
    (l2 := filter (λ proc, ppid proc = cur) l2)
    (l3 := filter (λ proc, ppid proc = cur) l3).
  unfold children_of. rewrite (std_sort_perm _).
  rewrite filter_app, filter_cons_True, filter_app, filter_cons_True by done.
  done.
Qed.

(** ** The self-parent record *)

Lemma printProcessTree_self_parent stack level :
  returned (printProcessTree stack self_parent_records 0 level) = false.
Proof.
  revert level. induction stack as [|stack IH]; intros level; [done|].
  rewrite printProcessTree_S, (children_of_singleton _ _ (mk 0 0 "idle")) by done.
  simpl. by rewrite returned_andThen, returned_visit, IH.
Qed.

(** ** The empty snapshot *)

Lemma printProcessTree_nil stack cur level :
  printProcessTree (S stack) [] cur level = Returned [].
Proof. by rewrite printProcessTree_S, children_of_nil. Qed.

(** ** The two-record cycle *)

Lemma cyclic_children cur :
  cur = 5 ∨ cur = 6 →
  children_of cyclic_records cur
  = [if decide (cur = 5) then mk 6 5 "b" else mk 5 6 "a"].
Proof. intros [-> | ->]; by apply children_of_singleton. Qed.

(** However deep the call stack, the printer uses all of it: every call on
    5 calls on 6 and every call on 6 calls on 5. *)
Lemma printProcessTree_cycle stack cur level :
  cur = 5 ∨ cur = 6 →
  printProcessTree stack cyclic_records cur level
  = StackExhausted (cycle_lines stack cur level).
Proof.
  revert cur level. induction stack as [|stack IH]; intros cur level Hcur; [done|].
  rewrite printProcessTree_S, (cyclic_children _ Hcur). simpl. unfold visit.
  rewrite IH; [done|]. destruct Hcur as [-> | ->]; simpl; auto.
Qed.

Lemma cycle_lines_length n cur level : length (cycle_lines n cur level) = n.
Proof. revert cur level. induction n; intros; simpl; [done|]. by rewrite IHn. Qed.

Lemma render_cycle stack :
  render stack cyclic_records 5
  = StackExhausted (root_line :: (show_line <$> cycle_lines stack 5 0)).
Proof. unfold render. rewrite printProcessTree_cycle by auto. done. Qed.

End Printer.

(** The worked example of the spec, run with the merge sort: "shell" (2)
    and its child come before "editor" (3). *)
Example render_example_records :
  render 5 example_records 0
  = Returned
      ["Root (System) (PID: 0, PPID: 0)"; "+-- init (PID: 1, PPID: 0)";
       "  +-- shell (PID: 2, PPID: 1)"; "    +-- child (PID: 4, PPID: 2)";
       "  +-- editor (PID: 3, PPID: 1)"].
Proof. reflexivity. Qed.

(** C1, as stated, fails: with whatever [std::sort] and however much call
    stack, rendering the cycle from root 5 does not return. *)
Lemma render_cycle_never_returns :
  ¬ ∃ (S : StdSort) (stack : nat),
      returned (render stack cyclic_records 5) = true.
Proof. intros (S & stack & Hret). by rewrite render_cycle in Hret. Qed.

(** C1 (amended): the printer has no depth bound and no visited set. On
    the cycle with root 5 it never returns: for every depth of call stack
    the run ends with the stack exhausted, having written the root line
    and then one line per nested call, "b" (PID 6) and "a" (PID 5) in
    turn, each one level deeper; no cycle is detected or reported and
    nothing is truncated. *)
Theorem render_cycle_exhausts_stack `{StdSort} (stack : nat) :
  render stack cyclic_records 5
  = StackExhausted (root_line :: (show_line <$> cycle_lines stack 5 0))
  ∧ length (cycle_lines stack 5 0) = stack
  ∧ (show_line <$> cycle_lines 3 5 0)
    = ["+-- b (PID: 6, PPID: 5)"; "  +-- a (PID: 5, PPID: 6)";
       "    +-- b (PID: 6, PPID: 5)"].
Proof.
  split; [apply render_cycle|]. split; [apply cycle_lines_length|]. reflexivity.
Qed.

(** C2, as stated, fails when two records share a pid: [twin_records] has
    no cycle and the record "c" descends from root 0, yet no run that
    returns has written exactly one line for it; with the merge sort the
    run writes two. *)
Lemma twin_records_child_written_twice :
  acyclic twin_records
  ∧ descends twin_records 0 (mk 2 1 "c")
  ∧ printProcessTree 3 twin_records 0 0
    = Returned [ {| depth := 0; proc := mk 1 0 "x" |};
                 {| depth := 1; proc := mk 2 1 "c" |};
                 {| depth := 0; proc := mk 1 0 "y" |};
                 {| depth := 1; proc := mk 2 1 "c" |} ]
  ∧ ¬ ∃ (S : StdSort) (stack : nat) (out : list Line),
        printProcessTree stack twin_records 0 0 = Returned out
        ∧ emitted (mk 2 1 "c") out = 1%nat.
Proof.
  split; [|split; [|split]].
  - apply increasing_pids_acyclic. unfold twin_records.
    repeat constructor; simpl; lia.
  - apply descends_step with (mk 1 0 "x"); [|set_solver|done].
    apply descends_child; [set_solver|done].
  - reflexivity.
  - intros (S & stack & out & Hrun & Hone).
    apply printProcessTree_Returned in Hrun as (stack' & -> & _ & ->).
    assert (Hkids : children_of twin_records 0 ≡ₚ [mk 1 0 "x"; mk 1 0 "y"])
      by apply std_sort_perm.
    rewrite (emitted_Permutation _ _ _ (bind_Permutation _ _ _ Hkids)) in Hone.
    csimpl in Hone. rewrite !emitted_cons, !emitted_app, !emitted_cons in Hone.
    rewrite !decide_False, app_nil_r in Hone by done. lia.
Qed.

(** C2 (amended): for every record set without a cycle the printer
    returns, within a call stack one deeper than the number of records and
    always with the same output; every line it writes is the line of a
    record that descends from the root, and every such record has at least
    one line. When moreover no two records share a pid, every record that
    descends from the root has exactly one line. *)
Theorem acyclic_render_visits_descendants `{StdSort}
    (all : list ProcessInfo) (root : Z) :
  acyclic all →
  ∃ out,
    (∀ stack, (length all < stack)%nat →
       printProcessTree stack all root 0 = Returned out
       ∧ render stack all root = Returned (root_line :: (show_line <$> out)))
    ∧ (∀ l, l ∈ out → descends all root (proc l))
    ∧ (∀ r, descends all root r → (1 ≤ emitted r out)%nat)
    ∧ (NoDup (pid <$> all) → ∀ r, descends all root r → emitted r out = 1%nat).
Proof.
  intros Hac.
  set (out := written (printProcessTree (S (length all)) all root 0)).
  assert (Hrun : ∀ stack, (length all < stack)%nat →
                 printProcessTree stack all root 0 = Returned out)
    by (intros; by apply printProcessTree_acyclic).
  assert (Hleast : ∀ r, descends all root r → (1 ≤ emitted r out)%nat).
  { intros r Hd. apply emitted_positive.
    destruct (descendant_written _ _ _ Hd _ _ _ (Hrun _ (Nat.lt_succ_diag_r _)))
      as (_ & level' & _ & Hl & _). eauto. }
  exists out. split; [|split; [|split]].
  - intros stack Hlen. split; [auto|]. unfold render. by rewrite Hrun.
  - intros l Hl. by apply written_descends in Hl as [? _].
  - done.
  - intros Hnd r Hd. specialize (Hleast r Hd).
    pose proof (emitted_NoDup r out) as Hmost.
    specialize (Hmost (printProcessTree_NoDup _ _ _ _ _ Hac Hnd
                         (Hrun _ (Nat.lt_succ_diag_r _)))). lia.
Qed.

(** The theorem at the records of the spec's worked example. *)
Lemma acyclic_render_example :
  acyclic example_records
  ∧ ∃ out,
    (∀ stack, (length example_records < stack)%nat →
       printProcessTree stack example_records 0 0 = Returned out
       ∧ render stack example_records 0 = Returned (root_line :: (show_line <$> out)))
    ∧ (∀ l, l ∈ out → descends example_records 0 (proc l))
    ∧ (∀ r, descends example_records 0 r → (1 ≤ emitted r out)%nat)
    ∧ (NoDup (pid <$> example_records) →
       ∀ r, descends example_records 0 r → emitted r out = 1%nat).
Proof.
  assert (Hac : acyclic example_records).
  { apply increasing_pids_acyclic. unfold example_records.
    repeat constructor; simpl; lia. }
  split; [exact Hac|].
  exact (acyclic_render_visits_descendants example_records 0 Hac).
Defined.

(** C6, as stated, fails when two children share a pid: whatever
    [std::sort] does, the children of 0 in [twin_records] are not written
    in strictly ascending pid order; the merge sort writes the pids 1, 1. *)
Lemma twin_children_not_strictly_ascending :
  (pid <$> direct_children 0 (written (printProcessTree 4 twin_records 0 0)) = [1; 1])
  ∧ ¬ ∃ S : StdSort,
        StronglySorted pid_lt
          (direct_children 0 (written (printProcessTree 4 twin_records 0 0))).
Proof.
  split; [reflexivity|]. intros [S Hs].
  assert (Hac : acyclic twin_records).
  { apply increasing_pids_acyclic. unfold twin_records.
    repeat constructor; simpl; lia. }
  destruct (direct_children_printProcessTree 4 twin_records 0 0) as [_ Hkids].
  rewrite Hkids in Hs
    by (apply printProcessTree_returns; [done | simpl; lia]).
  apply strictly_sorted_iff_distinct in Hs; [|apply children_of_sorted].
  assert (Hp : pid <$> children_of twin_records 0 ≡ₚ [1; 1]).
  { unfold children_of. by rewrite (std_sort_perm _). }
  rewrite Hp in Hs. apply NoDup_cons in Hs as [Hs _]. set_solver.
Qed.

(** C6 (amended): the lines a call writes at its own level are the lines
    of the direct children of the node, the records whose [ppid] is the
    node's pid, in the order [std::sort] left them, up to where the run
    stopped and all of them when the call returned. Their pids are in
    ascending order, which is strict exactly when no two of them share a
    pid. *)
Theorem children_written_in_pid_order `{StdSort}
    (stack : nat) (all : list ProcessInfo) (cur level : Z) :
  let run := printProcessTree stack all cur level in
  let kids := direct_children level (written run) in
  kids `prefix_of` children_of all cur
  ∧ (returned run = true → kids = children_of all cur)
  ∧ (∀ c, c ∈ children_of all cur ↔ c ∈ all ∧ ppid c = cur)
  ∧ StronglySorted pid_le kids
  ∧ (StronglySorted pid_lt kids ↔ NoDup (pid <$> kids)).
Proof.
  intros run kids.
  destruct (direct_children_printProcessTree stack all cur level) as [Hp Hr].
  assert (StronglySorted pid_le kids)
    by (eapply prefix_StronglySorted; [exact Hp | apply children_of_sorted]).
  split; [done|]. split; [done|]. split; [apply elem_of_children_of|].
  split; [done|]. by apply strictly_sorted_iff_distinct.
Qed.

(** The theorem at the children of "init" (pid 1) in the worked example:
    "shell" (2) before "editor" (3). *)
Lemma children_written_in_pid_order_example :
  (returned (printProcessTree 5 example_records 1 1) = true
   ∧ direct_children 1 (written (printProcessTree 5 example_records 1 1))
     = [mk 2 1 "shell"; mk 3 1 "editor"])
  ∧ (direct_children 1 (written (printProcessTree 5 example_records 1 1))
       `prefix_of` children_of example_records 1
     ∧ (returned (printProcessTree 5 example_records 1 1) = true →
        direct_children 1 (written (printProcessTree 5 example_records 1 1))
        = children_of example_records 1)
     ∧ (∀ c, c ∈ children_of example_records 1 ↔ c ∈ example_records ∧ ppid c = 1)
     ∧ StronglySorted pid_le
         (direct_children 1 (written (printProcessTree 5 example_records 1 1)))
     ∧ (StronglySorted pid_lt
          (direct_children 1 (written (printProcessTree 5 example_records 1 1)))
        ↔ NoDup (pid <$> direct_children 1
                   (written (printProcessTree 5 example_records 1 1))))).
Proof.
  split; [split; reflexivity|].
  exact (children_written_in_pid_order 5 example_records 1 1).
Defined.

(** C10: records that share a pid are not detected or merged. When two
    records at different positions of the record set have the same pid and
    both name the current node as their parent, a run that returned has
    written a line for each of them, each followed by the whole output of
    the call on their pid: the descendants of that pid are written once
    per duplicate. *)
Theorem duplicate_pids_retraversed `{StdSort}
    (stack : nat) (all : list ProcessInfo) (cur level : Z)
    (l1 l2 l3 : list ProcessInfo) (r1 r2 : ProcessInfo) :
  all = l1 ++ r1 :: l2 ++ r2 :: l3 →
  ppid r1 = cur → ppid r2 = cur → pid r1 = pid r2 →
  (acyclic all → (length all < stack)%nat →
   returned (printProcessTree stack all cur level) = true)
  ∧ ∀ out, printProcessTree stack all cur level = Returned out →
    ∃ stack' sub a b c x y,
      stack = S stack'
      ∧ printProcessTree stack' all (pid r1) (level + 1) = Returned sub
      ∧ out = a ++ ({| depth := level; proc := x |} :: sub) ++ b
                ++ ({| depth := level; proc := y |} :: sub) ++ c
      ∧ ((x = r1 ∧ y = r2) ∨ (x = r2 ∧ y = r1)).
Proof.
  intros Hall Hp1 Hp2 Hpid. split; [by apply printProcessTree_returns|].
  intros out (stack' & -> & Hret & ->)%printProcessTree_Returned.
  destruct (duplicates_in_children _ _ _ _ _ _ _ Hall Hp1 Hp2)
    as (a & b & c & x & y & Hkids & Hxy).
  rewrite Hkids in Hret |- *.
  set (f := λ c0, {| depth := level; proc := c0 |}
              :: written (printProcessTree stack' all (pid c0) (level + 1))).
  assert (Hx : pid x = pid r1) by (destruct Hxy as [[-> _] | [-> _]]; congruence).
  assert (Hy : pid y = pid r1) by (destruct Hxy as [[_ ->] | [_ ->]]; congruence).
  exists stack', (written (printProcessTree stack' all (pid r1) (level + 1))),
    (a ≫= f), (b ≫= f), (c ≫= f), x, y.
  split; [done|]. split; [|split; [|done]].
  - apply Returned_written. rewrite <- Hx.
    rewrite Forall_app, Forall_cons in Hret. tauto.
  - rewrite bind_app, bind_cons, bind_app, bind_cons. unfold f at 2 4.
    by rewrite Hx, Hy.
Qed.

(** The theorem at [twin_records], where "x" and "y" share pid 1 under
    parent 0: the run writes "c", the child of 1, after each of them. *)
Lemma duplicate_pids_retraversed_twins :
  (twin_records = [] ++ mk 1 0 "x" :: [] ++ mk 1 0 "y" :: [mk 2 1 "c"]
   ∧ ppid (mk 1 0 "x") = 0 ∧ ppid (mk 1 0 "y") = 0
   ∧ pid (mk 1 0 "x") = pid (mk 1 0 "y"))
  ∧ (acyclic twin_records → (length twin_records < 4)%nat →
     returned (printProcessTree 4 twin_records 0 0) = true)
  ∧ ∀ out, printProcessTree 4 twin_records 0 0 = Returned out →
    ∃ stack' sub a b c x y,
      4%nat = S stack'
      ∧ printProcessTree stack' twin_records (pid (mk 1 0 "x")) (0 + 1) = Returned sub
      ∧ out = a ++ ({| depth := 0; proc := x |} :: sub) ++ b
                ++ ({| depth := 0; proc := y |} :: sub) ++ c
      ∧ ((x = mk 1 0 "x" ∧ y = mk 1 0 "y") ∨ (x = mk 1 0 "y" ∧ y = mk 1 0 "x")).
Proof.
  split; [repeat split|].
  exact (duplicate_pids_retraversed 4 twin_records 0 0
           [] [] [mk 2 1 "c"] (mk 1 0 "x") (mk 1 0 "y")
           eq_refl eq_refl eq_refl eq_refl).
Defined.

(** C5, as stated, fails. An unreadable [/proc] and a readable one with no
    record reach [main] as the same empty vector and end with the same
    exit status, so [main] is given no distinct condition; and a snapshot
    that is not empty does not end in success when the traversal from pid 0
    runs into a cycle, as with a record that is its own parent. *)
Lemma main_conflates_unreadable_and_empty :
  (getAllProcessInfo ProcUnreadable).2 = (getAllProcessInfo (ProcReadable [])).2
  ∧ (¬ ∃ (S : StdSort) (stack : nat),
         status (main stack ProcUnreadable) ≠ status (main stack (ProcReadable [])))
  ∧ (¬ ∃ (S : StdSort) (stack : nat),
         status (main stack (ProcReadable self_parent_records)) = Exit 0).
Proof.
  split; [reflexivity|]. split.
  - by intros (S & stack & Hne).
  - intros (S & stack & Hexit). unfold main, render in Hexit. simpl in Hexit.
    pose proof (printProcessTree_self_parent stack 0) as Hret.
    by destruct (printProcessTree stack self_parent_records 0 0).
Qed.

(** C5 (amended): [main] exits with status 1 exactly when the vector it
    gets from [getAllProcessInfo] is empty; otherwise it exits with status
    0 once the traversal from pid 0 has returned, which it does for every
    record set without a cycle. An unreadable [/proc] is not a condition
    of its own at the top level: it reaches [main] as the same empty
    vector as a snapshot with no record, with the same exit status and the
    same output, and differs only by the line that [getAllProcessInfo]
    itself writes to [std::cerr] first. *)
Theorem main_exit_status `{StdSort} (stack : nat) (src : ProcSource) :
  let all := (getAllProcessInfo src).2 in
  status (main stack src)
  = match all with
    | [] => Exit 1
    | _ :: _ =>
        if returned (printProcessTree stack all 0 0) then Exit 0 else Crashed
    end
  ∧ (all ≠ [] → acyclic all → (length all < stack)%nat →
     status (main stack src) = Exit 0)
  ∧ (getAllProcessInfo ProcUnreadable).2 = (getAllProcessInfo (ProcReadable [])).2
  ∧ status (main stack ProcUnreadable) = status (main stack (ProcReadable []))
  ∧ stdout (main stack ProcUnreadable) = stdout (main stack (ProcReadable []))
  ∧ stderr (main stack ProcUnreadable)
    = "Error: Could not open /proc directory."
        :: stderr (main stack (ProcReadable [])).
Proof.
  intros all.
  assert (Hstatus : status (main stack src)
    = match all with
      | [] => Exit 1
      | _ :: _ =>
          if returned (printProcessTree stack all 0 0) then Exit 0 else Crashed
      end).
  { subst all. unfold main, render.
    destruct (getAllProcessInfo src) as [err [|r all]]; simpl; [done|].
    by destruct (printProcessTree stack (r :: all) 0 0). }
  split; [exact Hstatus|]. split; [|by repeat split].
  intros Hne Hac Hlen. rewrite Hstatus. destruct all as [|r all'] eqn:E; [done|].
  by rewrite printProcessTree_returns.
Qed.

(** The theorem at the worked example, read from a readable [/proc]. *)
Lemma main_exit_status_example :
  (example_records ≠ [] ∧ acyclic example_records
   ∧ (length example_records < 5)%nat)
  ∧ status (main 5 (ProcReadable example_records)) = Exit 0
  ∧ status (main 5 ProcUnreadable) = Exit 1
  ∧ status (main 5 (ProcReadable [])) = Exit 1.
Proof.
  assert (Hne : example_records ≠ []) by done.
  assert (Hac : acyclic example_records).
  { apply increasing_pids_acyclic. unfold example_records.
    repeat constructor; simpl; lia. }
  assert (Hlen : (length example_records < 5)%nat) by (simpl; lia).
  split; [by repeat split|]. split; [|split; reflexivity].
  exact (proj1 (proj2 (main_exit_status 5 (ProcReadable example_records)))
           Hne Hac Hlen).
Defined.

(** C3, as stated, fails of the program: with whatever [std::sort] and
    call stack, [main] given an empty vector neither writes the root line
    nor ends in success. *)
Lemma main_empty_writes_no_root_line :
  ¬ ∃ (S : StdSort) (stack : nat),
      "Root (System) (PID: 0, PPID: 0)" ∈ stdout (main stack (ProcReadable []))
      ∨ status (main stack (ProcReadable [])) = Exit 0.
Proof.
  intros (S & stack & [Hroot | Hexit]).
  - simpl in Hroot. by apply list_elem_of_singleton in Hroot.
  - done.
Qed.

(** C3 (amended): on the empty record sequence [printProcessTree] with
    root 0 writes no line and returns, but the program never writes the
    root line for it. [main] tests the vector before it renders (line
    115): on an empty vector it writes only the first progress line to
    [std::cout] and the no-information message to [std::cerr], and returns
    1. The root line is on [std::cout] exactly when the vector is not
    empty. *)
Theorem empty_vector_not_rendered `{StdSort} (stack : nat) :
  printProcessTree (S stack) [] 0 0 = Returned []
  ∧ main stack (ProcReadable [])
    = {| stdout := ["Gathering process information..."];
         stderr := ["No process information retrieved. This might happen on non-Linux/macOS systems or due to permissions."];
         status := Exit 1 |}
  ∧ ∀ src, "Root (System) (PID: 0, PPID: 0)" ∈ stdout (main stack src)
           ↔ (getAllProcessInfo src).2 ≠ [].
Proof.
  split; [apply printProcessTree_nil|]. split; [done|].
  intros src. unfold main, render.
  destruct (getAllProcessInfo src) as [err [|r all]]; simpl.
  - rewrite list_elem_of_singleton. split; [discriminate | done].
  - split; [done|]. intros _.
    destruct (printProcessTree stack (r :: all) 0 0); simpl;
      rewrite !elem_of_cons; auto.
Qed.

End ProcessTreeSpec.


(* ===================================================================== *)
(** * Properties of the router                                            *)
(* ===================================================================== *)

Module RouterSpec.
Import Router.

Section Dispatch.
Context `{StringUpcase}.

(** Reading a verb's paths through the default block changes no
    resolution. *)
Lemma fetch_paths (routes : Routes) key path :
  match (fetch routes key).1 !! path with Some h => h | None => None end
  = resolve routes key path.
Proof.
  unfold fetch, resolve. destruct (routes !! key) as [paths|]; simpl; [done|].
  by rewrite lookup_empty.
Qed.

Lemma fetch_resolve (routes : Routes) key method path :
  resolve (fetch routes key).2 method path = resolve routes method path.
Proof.
  unfold fetch. destruct (routes !! key) as [paths|] eqn:E; simpl; [done|].
  unfold resolve. destruct (decide (key = method)) as [->|Hne].
  - by rewrite lookup_insert_eq, E, lookup_empty.
  - by rewrite lookup_insert_ne.
Qed.

Lemma fetch_table (routes : Routes) key :
  (fetch routes key).2
  = match routes !! key with Some _ => routes | None => <[key := ∅]> routes end.
Proof. unfold fetch. by destruct (routes !! key). Qed.

(** [dispatch] answers with the result of the handler the pair resolves
    to, and with the sentinel when it resolves to none. *)
Lemma dispatch_response (routes : Routes) http_method path :
  response (dispatch http_method path routes)
  = match resolve routes (upcase http_method) path with
    | Some handler => handler ()
    | None => not_found
    end.
Proof.
  unfold dispatch. rewrite <- fetch_paths.
  destruct (fetch routes (upcase http_method)) as [paths routes'] eqn:E. simpl.
  by destruct (paths !! path) as [[handler|]|].
Qed.

Lemma dispatch_routes_after (routes : Routes) http_method path :
  routes_after (dispatch http_method path routes)
  = (fetch routes (upcase http_method)).2.
Proof.
  unfold dispatch.
  destruct (fetch routes (upcase http_method)) as [paths routes'] eqn:E. simpl.
  by destruct (paths !! path) as [[handler|]|].
Qed.

(** What a registration changes: the one pair it names. *)
Lemma define_method_resolve (routes : Routes) method_name path block method path' :
  resolve (define_method method_name path block routes).2 method path'
  = if decide (method = upcase method_name ∧ path' = path) then block
    else resolve routes method path'.
Proof.
  unfold define_method.
  destruct (fetch routes (upcase method_name)) as [paths routes'] eqn:E. simpl.
  assert (Hp : paths = (fetch routes (upcase method_name)).1) by by rewrite E.
  assert (Hr : routes' = (fetch routes (upcase method_name)).2) by by rewrite E.
  case_decide as Hd.
  - destruct Hd as [-> ->]. unfold resolve.
    by rewrite !lookup_insert_eq.
  - destruct (decide (method = upcase method_name)) as [->|Hne].
    + assert (path' ≠ path) by naive_solver.
      unfold resolve at 1. rewrite lookup_insert_eq, lookup_insert_ne by done.
      rewrite Hp. apply fetch_paths.
    + unfold resolve at 1. rewrite lookup_insert_ne by done.
      fold (resolve routes' method path'). rewrite Hr. apply fetch_resolve.
Qed.

(** The verb reaches the table only through [upcase]. *)
Lemma dispatch_upcase (routes : Routes) s method path :
  upcase s = upcase method →
  dispatch s path routes = dispatch method path routes.
Proof. intros Heq. unfold dispatch. by rewrite Heq. Qed.

End Dispatch.

(** The dispatches of the example usage (lines 131-153), with the answers
    the source expects. *)
Example dispatch_example_usage :
  response (dispatch "get" "/" example_routes) = "Hello from the home page!"
  ∧ response (dispatch "post" "/submit" example_routes)
    = "Data received successfully via POST!"
  ∧ response (dispatch "delete" "/item/1" example_routes)
    = "Item 1 deleted successfully."
  ∧ response (dispatch "get" "/status" example_routes)
    = "Current status: All systems nominal (GET request)."
  ∧ response (dispatch "post" "/status" example_routes)
    = "Attempting to update status... (POST request)."
  ∧ response (dispatch "get" "/contact" example_routes) = "404 Not Found"
  ∧ response (dispatch "put" "/" example_routes) = "404 Not Found"
  ∧ printed (dispatch "put" "/" example_routes) = ["-> No route matched: PUT /"].
Proof. repeat split. Qed.

(** C4, as stated, fails: whatever [upcase] is, dispatching on the empty
    table leaves a table that is no longer the empty one. *)
Lemma dispatch_extends_empty_table :
  ¬ ∃ U : StringUpcase,
      routes_after (dispatch "post" "/unregistered" initialize) = initialize.
Proof.
  intros [U Heq]. rewrite dispatch_routes_after, fetch_table in Heq.
  unfold initialize in Heq. rewrite lookup_empty in Heq.
  apply (f_equal (λ m : Routes, m !! (upcase "post"))) in Heq.
  by rewrite lookup_insert_eq, lookup_empty in Heq.
Qed.

(** C4 (amended): [dispatch] never changes the handler any (method, path)
    pair resolves to. The table itself is left as it was when the
    normalized verb already has an entry; when it has none, the read
    through the default block adds an entry with no paths for it. *)
Theorem dispatch_preserves_resolution `{StringUpcase}
    (routes : Routes) (http_method path : string) :
  (∀ method path', resolve (routes_after (dispatch http_method path routes)) method path'
                   = resolve routes method path')
  ∧ routes_after (dispatch http_method path routes)
    = match routes !! upcase http_method with
      | Some _ => routes
      | None => <[upcase http_method := ∅]> routes
      end.
Proof.
  rewrite dispatch_routes_after. split.
  - intros method path'. apply fetch_resolve.
  - apply fetch_table.
Qed.

(** C7: the verb is matched through [upcase] only, so every casing of a
    verb a route was registered under reaches that route; the path is
    matched exactly, so a registration at [path] leaves the answer for
    any other path, such as one that differs in case only, as it was. *)
Theorem dispatch_verb_casing_path_exact `{StringUpcase}
    (routes : Routes) (method s path path' : string) (action : Action) :
  method ∈ HTTP_METHODS →
  upcase s = upcase method →
  path' ≠ path →
  let routes' := (define_method method path (Some action) routes).2 in
  (∀ q, dispatch s q routes' = dispatch method q routes')
  ∧ response (dispatch s path routes') = action ()
  ∧ response (dispatch s path' routes') = response (dispatch s path' routes).
Proof.
  intros _ Hs Hp routes'. split; [intros q; by apply dispatch_upcase|].
  rewrite !dispatch_response. subst routes'. rewrite !define_method_resolve.
  rewrite Hs. split.
  - by rewrite decide_True.
  - rewrite decide_False; [done|]. by intros [_ ?].
Qed.

(** The theorem at the spec's example: "GeT" reaches the route registered
    by [get] at "/about", and "/About" reaches none. *)
Lemma dispatch_verb_casing_path_exact_example :
  "get" ∈ HTTP_METHODS ∧ upcase "GeT" = upcase "get" ∧ "/About" ≠ "/about"
  ∧ response (dispatch "GeT" "/about" (get "/about" (Some (λ _, "about")) initialize).2)
    = "about"
  ∧ response (dispatch "get" "/About" (get "/about" (Some (λ _, "about")) initialize).2)
    = "404 Not Found".
Proof.
  assert (Hm : "get" ∈ HTTP_METHODS) by (unfold HTTP_METHODS; set_solver).
  assert (Hp : "/About" ≠ "/about") by done.
  split; [exact Hm|]. split; [reflexivity|]. split; [exact Hp|].
  split.
  - exact (proj1 (proj2 (dispatch_verb_casing_path_exact
      initialize "get" "GeT" "/about" "/About" (λ _, "about") Hm eq_refl Hp))).
  - exact (eq_trans (proj2 (proj2 (dispatch_verb_casing_path_exact
      initialize "get" "get" "/about" "/About" (λ _, "about") Hm eq_refl Hp)))
      eq_refl).
Defined.

(** C8: a second registration of the same (verb, path) pair replaces the
    first: after registering [A] and then [B], dispatch answers with [B]'s
    result. *)
Theorem register_last_write_wins `{StringUpcase}
    (routes : Routes) (method path : string) (A B : Action) :
  method ∈ HTTP_METHODS →
  let routes1 := (define_method method path (Some A) routes).2 in
  let routes2 := (define_method method path (Some B) routes1).2 in
  response (dispatch method path routes2) = B ().
Proof.
  intros _ routes1 routes2. rewrite dispatch_response. subst routes2.
  rewrite define_method_resolve. by rewrite decide_True.
Qed.

(** The theorem at [get "/"] registered twice on the new table. *)
Lemma register_last_write_wins_example :
  "get" ∈ HTTP_METHODS
  ∧ response (dispatch "get" "/"
      (get "/" (Some (λ _, "B")) (get "/" (Some (λ _, "A")) initialize).2).2) = "B".
Proof.
  assert (Hm : "get" ∈ HTTP_METHODS) by (unfold HTTP_METHODS; set_solver).
  split; [exact Hm|].
  exact (register_last_write_wins initialize "get" "/" (λ _, "A") (λ _, "B") Hm).
Defined.

(** C9: when the pair resolves to no handler, which is the case on the
    empty table, when the normalized verb has no entry, and when the verb's
    entry has nothing at the path, [dispatch] returns the string
    ["404 Not Found"] as its value. *)
Theorem dispatch_not_found `{StringUpcase}
    (routes : Routes) (http_method path : string) :
  routes = initialize
  ∨ routes !! upcase http_method = None
  ∨ (∃ paths, routes !! upcase http_method = Some paths ∧ paths !! path = None) →
  response (dispatch http_method path routes) = "404 Not Found".
Proof.
  intros Hno. rewrite dispatch_response.
  assert (resolve routes (upcase http_method) path = None) as ->; [|done].
  unfold resolve. destruct Hno as [Hr | [Hr | (paths & Hr & Hp)]].
  - subst routes. unfold initialize. by rewrite lookup_empty.
  - by rewrite Hr.
  - rewrite Hr. cbn beta iota. by rewrite Hp.
Qed.

(** The theorem at the spec's example, a POST on the new table. *)
Lemma dispatch_not_found_example :
  (initialize = initialize
   ∨ initialize !! upcase "post" = None
   ∨ (∃ paths : Paths, initialize !! upcase "post" = Some paths
                       ∧ paths !! "/unregistered" = None))
  ∧ response (dispatch "post" "/unregistered" initialize) = "404 Not Found".
Proof.
  assert (Hno : initialize = initialize
   ∨ initialize !! upcase "post" = None
   ∨ (∃ paths : Paths, initialize !! upcase "post" = Some paths
                       ∧ paths !! "/unregistered" = None)) by (left; reflexivity).
  split; [exact Hno|].
  exact (dispatch_not_found initialize "post" "/unregistered" Hno).
Defined.

End RouterSpec.

(* ===================================================================== *)
(** * Further properties of the router                                    *)
(* ===================================================================== *)

Module RouterFacts.
Import Router RouterUse RouterSpec.

Section Table.
Context `{StringUpcase}.

(** The table a registration leaves, without the detour through the
    default block. *)
Lemma define_method_table (routes : Routes) method_name path block :
  (define_method method_name path block routes).2
  = <[upcase method_name :=
        <[path := block]> (default ∅ (routes !! upcase method_name))]> routes.
Proof.
  unfold define_method, fetch.
  destruct (routes !! upcase method_name) as [paths|]; simpl; [done|].
  by rewrite insert_insert_eq.
Qed.

Lemma dispatch_printed (routes : Routes) http_method path :
  printed (dispatch http_method path routes)
  = match resolve routes (upcase http_method) path with
    | Some _ => ["-> Matched route: " +:+ upcase http_method +:+ " " +:+ path]
    | None => ["-> No route matched: " +:+ upcase http_method +:+ " " +:+ path]
    end.
Proof.
  unfold dispatch. rewrite <- fetch_paths.
  destruct (fetch routes (upcase http_method)) as [paths routes'] eqn:E. simpl.
  by destruct (paths !! path) as [[handler|]|].
Qed.

Lemma under_defined_methods_call (routes : Routes) c :
  defined c → under_defined_methods routes → under_defined_methods (call routes c).
Proof.
  intros Hc Hinv key path action. destruct c as [m p b | m p]; simpl in *.
  - rewrite define_method_resolve. case_decide as Hd; [|by apply Hinv].
    destruct Hd as [-> ->]. eauto.
  - rewrite dispatch_routes_after, fetch_resolve. by apply Hinv.
Qed.

Lemma under_defined_methods_calls (routes : Routes) calls :
  Forall defined calls → under_defined_methods routes →
  under_defined_methods (foldl call routes calls).
Proof.
  intros Hcalls. revert routes.
  induction Hcalls as [|c calls Hc _ IH]; intros routes Hinv; [done|].
  simpl. by apply IH, under_defined_methods_call.
Qed.

End Table.



(** X2: a method called without a block stores [nil] for the pair, and
    [dispatch] then answers a request for that pair with the not-found
    sentinel, whatever handler the pair had before. *)
Theorem register_without_block `{StringUpcase}
    (routes : Routes) (method_name path : string) :
  let routes' := (define_method method_name path None routes).2 in
  response (dispatch method_name path routes') = "404 Not Found"
  ∧ printed (dispatch method_name path routes')
    = ["-> No route matched: " +:+ upcase method_name +:+ " " +:+ path].
Proof.
  intros routes'. subst routes'.
  rewrite dispatch_response, dispatch_printed, define_method_resolve.
  by rewrite decide_True.
Qed.

(** X3: registrations of two different (method, path) pairs can be made
    in either order: the table they leave is the same. *)
Theorem register_commutes `{StringUpcase}
    (routes : Routes) (m1 p1 m2 p2 : string) (b1 b2 : Handler) :
  upcase m1 ≠ upcase m2 ∨ p1 ≠ p2 →
  (define_method m2 p2 b2 (define_method m1 p1 b1 routes).2).2
  = (define_method m1 p1 b1 (define_method m2 p2 b2 routes).2).2.
Proof.
  intros Hne. rewrite !define_method_table.
  destruct (decide (upcase m1 = upcase m2)) as [Heq | Hk].
  - destruct Hne as [? | Hp]; [done|]. rewrite Heq.
    rewrite !lookup_insert_eq, !insert_insert_eq. simpl.
    f_equal. by apply insert_insert_ne.
  - rewrite !lookup_insert_ne by done. by apply insert_insert_ne.
Qed.

(** The theorem at two registrations of the example usage. *)
Lemma register_commutes_example :
  (upcase "get" ≠ upcase "post" ∨ "/status" ≠ "/status")
  ∧ (post "/status" (Some (λ _, "B")) (get "/status" (Some (λ _, "A")) initialize).2).2
    = (get "/status" (Some (λ _, "A")) (post "/status" (Some (λ _, "B")) initialize).2).2.
Proof.
  assert (Hne : upcase "get" ≠ upcase "post" ∨ "/status" ≠ "/status")
    by (left; done).
  split; [exact Hne|].
  exact (register_commutes initialize "get" "/status" "post" "/status"
           (Some (λ _, "A")) (Some (λ _, "B")) Hne).
Defined.



(** X5: whatever calls a router has received since it was created, each
    handler in its table sits under the normalized name of one of the four
    generated methods, and a dispatch with that method and the handler's
    path calls it: no stored handler is out of reach. *)
Theorem stored_handlers_reachable `{StringUpcase}
    (calls : list Call) (key path : string) (action : Action) :
  Forall defined calls →
  resolve (after_calls calls) key path = Some action →
  ∃ method_name,
    method_name ∈ HTTP_METHODS
    ∧ key = upcase method_name
    ∧ response (dispatch method_name path (after_calls calls)) = action ().
Proof.
  intros Hcalls Hres.
  assert (Hinv : under_defined_methods (after_calls calls)).
  { apply under_defined_methods_calls; [done|].
    intros k p a. unfold resolve, initialize. by rewrite lookup_empty. }
  destruct (Hinv _ _ _ Hres) as (m & Hm & ->).
  exists m. split; [done|]. split; [done|].
  by rewrite dispatch_response, Hres.
Qed.

(** The theorem after a registration and a dispatch with a verb that no
    method was generated for. *)
Lemma stored_handlers_reachable_example :
  (Forall defined [Register "get" "/" (Some (λ _, "home")); Dispatch "patch" "/x"]
   ∧ resolve (after_calls [Register "get" "/" (Some (λ _, "home")); Dispatch "patch" "/x"])
       "GET" "/" = Some (λ _, "home"))
  ∧ ∃ method_name,
      method_name ∈ HTTP_METHODS
      ∧ "GET" = upcase method_name
      ∧ response (dispatch method_name "/"
          (after_calls [Register "get" "/" (Some (λ _, "home")); Dispatch "patch" "/x"]))
        = "home".
Proof.
  assert (Hdef : Forall defined
            [Register "get" "/" (Some (λ _, "home")); Dispatch "patch" "/x"]).
  { repeat constructor. }
  split; [split; [exact Hdef | reflexivity]|].
  exact (stored_handlers_reachable
           [Register "get" "/" (Some (λ _, "home")); Dispatch "patch" "/x"]
           "GET" "/" (λ _, "home") Hdef eq_refl).
Defined.

End RouterFacts.

(* ===================================================================== *)
(** * Further properties of the process tree                              *)
(* ===================================================================== *)

Module ProcessTreeFacts.
Import ProcessTree TreeShape ProcessTreeSpec.

Section Shape.
Context `{StdSort}.

Lemma placed_after cur level xs pre l :
  placed cur level pre l → placed cur level (xs ++ pre) l.
Proof.
  intros [Htop | (pre' & p & mid & -> & Hd & Hp & Hmid)]; [by left|].
  right. exists (xs ++ pre'), p, mid. by rewrite <- app_assoc.
Qed.

Lemma nested_under_app cur level o1 o2 :
  nested_under cur level o1 → nested_under cur level o2 →
  nested_under cur level (o1 ++ o2).
Proof.
  intros H1 H2 pre l post Heq.
  apply app_eq_inv in Heq as [(k & -> & Hk) | (k & -> & ->)].
  - destruct k as [|x k]; simpl in Hk.
    + rewrite <- (app_nil_r pre). apply placed_after. by apply (H2 [] l post).
    + injection Hk as <- ->. by apply (H1 pre l k).
  - apply placed_after. by apply (H2 k l post).
Qed.

Lemma nested_under_visit all stack cur level c :
  ppid c = cur →
  nested_under (pid c) (level + 1)
    (written (printProcessTree stack all (pid c) (level + 1))) →
  nested_under cur level (written (visit stack all level c)).
Proof.
  intros Hc Hsub pre l post. rewrite written_visit.
  destruct pre as [|x pre]; simpl; intros [= <- Heq].
  - by left.
  - right. destruct (Hsub pre l post Heq)
      as [[Hd Hp] | (pre' & p & mid & -> & Hd & Hp & Hmid)].
    + exists [], {| depth := level; proc := c |}, pre.
      split; [done|]. split; [simpl; lia|]. split; [done|].
      apply Forall_forall. intros y Hy.
      assert (y ∈ written (printProcessTree stack all (pid c) (level + 1)))
        as [_ Hle]%written_descends by (rewrite Heq; set_solver).
      lia.
    + exists ({| depth := level; proc := c |} :: pre'), p, mid. done.
Qed.

Lemma nested_under_printProcessTree stack all cur level :
  nested_under cur level (written (printProcessTree stack all cur level)).
Proof.
  revert cur level. induction stack as [|stack IH]; intros cur level.
  { intros pre l post Heq. by destruct pre. }
  rewrite printProcessTree_S.
  assert (Hkids : Forall (λ c, ppid c = cur) (children_of all cur)).
  { apply Forall_forall. by intros c [_ ?]%elem_of_children_of. }
  induction Hkids as [|c kids Hc _ IHkids]; simpl.
  { intros pre l post Heq. by destruct pre. }
  rewrite written_andThen. apply nested_under_app.
  - by apply nested_under_visit.
  - destruct (returned (visit stack all level c)); [done|].
    intros pre l post Heq. by destruct pre.
Qed.

Lemma for_each_ext {A B} (f g : A → Run B) xs :
  (∀ x, x ∈ xs → f x = g x) → for_each f xs = for_each g xs.
Proof.
  induction xs as [|x xs IH]; simpl; intros Hfg; [done|].
  rewrite Hfg by left. rewrite IH; [done|]. intros y Hy. apply Hfg. by right.
Qed.

End Shape.

(** The children of a node do not depend on the order of the records or
    on the sort, when no two records share a pid. *)
Lemma children_of_canonical (S1 S2 : StdSort) all all' cur :
  all ≡ₚ all' → NoDup (pid <$> all) →
  @children_of S1 all cur = @children_of S2 all' cur.
Proof.
  intros Hperm Hnd.
  apply (StronglySorted_unique_strong pid_le);
    [| apply children_of_sorted | apply children_of_sorted |].
  - intros x1 x2 [Hx1 _]%elem_of_children_of [Hx2 _]%elem_of_children_of Hle1 Hle2.
    apply (unique_pid all); [done | done | by rewrite Hperm |].
    unfold pid_le in *. lia.
  - unfold children_of. by rewrite !(std_sort_perm _), Hperm.
Qed.

(** X6: every line stands under its parent's line. In the output of a
    call, returned or not, a line is either at the call's own level and
    describes a child of the call's pid, or it is one level deeper than an
    earlier line that describes its parent, with nothing less deep in
    between. *)
Theorem lines_nested_under_parents `{StdSort}
    (stack : nat) (all : list ProcessInfo) (cur level : Z) :
  nested_under cur level (written (printProcessTree stack all cur level)).
Proof. apply nested_under_printProcessTree. Qed.

(** X7: when no two records share a pid, what the printer writes depends
    neither on the order of the records in the vector nor on how
    [std::sort] orders: two runs on permutations of the same records, with
    any two sorts, are the same run. *)
Theorem output_independent_of_record_order (S1 S2 : StdSort)
    (stack : nat) (all all' : list ProcessInfo) (cur level : Z) :
  all ≡ₚ all' → NoDup (pid <$> all) →
  @printProcessTree S1 stack all cur level = @printProcessTree S2 stack all' cur level.
Proof.
  intros Hperm Hnd. revert cur level.
  induction stack as [|stack IH]; intros cur level; [done|].
  rewrite !printProcessTree_S, (children_of_canonical S1 S2 all all') by done.
  apply for_each_ext. intros c _. unfold visit. by rewrite IH.
Qed.

(** The theorem at the worked example and its reverse. *)
Lemma output_independent_of_record_order_example :
  (example_records ≡ₚ reverse example_records ∧ NoDup (pid <$> example_records))
  ∧ printProcessTree 5 example_records 0 0
    = printProcessTree 5 (reverse example_records) 0 0.
Proof.
  assert (Hperm : example_records ≡ₚ reverse example_records)
    by (symmetry; apply reverse_Permutation).
  assert (Hnd : NoDup (pid <$> example_records)).
  { apply NoDup_ListNoDup. unfold example_records. simpl.
    repeat (constructor; [simpl; intuition discriminate|]). constructor. }
  split; [by split|].
  exact (output_independent_of_record_order merge_std_sort merge_std_sort
           5 example_records (reverse example_records) 0 0 Hperm Hnd).
Defined.

(** X8: a record that does not descend from the pid a call is made on is
    never written by it, returned or not; in particular a record whose
    parent is neither that pid nor the pid of any record. *)
Theorem strangers_never_written `{StdSort}
    (stack : nat) (all : list ProcessInfo) (cur level : Z) (r : ProcessInfo) :
  ¬ descends all cur r ∨ (ppid r ≠ cur ∧ ∀ c, c ∈ all → pid c ≠ ppid r) →
  emitted r (written (printProcessTree stack all cur level)) = 0%nat.
Proof.
  intros Hnot.
  assert (Hnd : ¬ descends all cur r).
  { destruct Hnot as [? | [Hne Hno]]; [done|].
    intros [Heq | (c & Hc & Hpc)]%descends_parent; [done|].
    by apply (Hno c); [eapply descends_elem|]. }
  destruct (emitted r (written (printProcessTree stack all cur level)))
    as [|n] eqn:E; [done|].
  assert (1 ≤ emitted r (written (printProcessTree stack all cur level)))%nat
    as (l & Hl & <-)%emitted_positive by lia.
  by apply written_descends in Hl as [? _].
Qed.

(** The theorem at the worked example with an orphan added. *)
Lemma strangers_never_written_orphan :
  (¬ descends (mk 9 7 "lost" :: example_records) 0 (mk 9 7 "lost")
   ∨ (ppid (mk 9 7 "lost") ≠ 0
      ∧ ∀ c, c ∈ mk 9 7 "lost" :: example_records → pid c ≠ ppid (mk 9 7 "lost")))
  ∧ emitted (mk 9 7 "lost")
      (written (printProcessTree 6 (mk 9 7 "lost" :: example_records) 0 0)) = 0%nat.
Proof.
  assert (Hor : ¬ descends (mk 9 7 "lost" :: example_records) 0 (mk 9 7 "lost")
   ∨ (ppid (mk 9 7 "lost") ≠ 0
      ∧ ∀ c, c ∈ mk 9 7 "lost" :: example_records → pid c ≠ ppid (mk 9 7 "lost"))).
  { right. split; [done|]. intros c Hc. unfold example_records in Hc.
    repeat (apply elem_of_cons in Hc as [-> | Hc]; [done|]). by inv Hc. }
  split; [exact Hor|].
  exact (strangers_never_written 6 (mk 9 7 "lost" :: example_records) 0 0
           (mk 9 7 "lost") Hor).
Defined.

(** X9: a snapshot that is not empty but has no record with parent 0
    is no error for [main]: it prints the two progress lines and the root
    line, nothing else, and exits with status 0, cycles among the records
    or not. *)
Theorem main_without_top_level_records `{StdSort}
    (stack : nat) (scanned : list ProcessInfo) :
  scanned ≠ [] → Forall (λ r, ppid r ≠ 0) scanned →
  main (S stack) (ProcReadable scanned)
  = {| stdout := ["Gathering process information...";
                  "Building and printing process tree...";
                  "Root (System) (PID: 0, PPID: 0)"];
       stderr := [];
       status := Exit 0 |}.
Proof.
  intros Hne Hno.
  assert (Hkids : children_of scanned 0 = []).
  { unfold children_of. apply Permutation_nil_r. rewrite (std_sort_perm _).
    clear Hne. induction Hno as [|r rs Hr _ IH]; [done|].
    by rewrite filter_cons_False. }
  destruct scanned as [|r rs]; [done|].
  unfold main, render, getAllProcessInfo.
  by rewrite printProcessTree_S, Hkids.
Qed.

(** The theorem at the two-record cycle, which [main] never enters. *)
Lemma main_without_top_level_records_cycle :
  (cyclic_records ≠ [] ∧ Forall (λ r, ppid r ≠ 0) cyclic_records)
  ∧ main 1 (ProcReadable cyclic_records)
    = {| stdout := ["Gathering process information...";
                    "Building and printing process tree...";
                    "Root (System) (PID: 0, PPID: 0)"];
         stderr := [];
         status := Exit 0 |}.
Proof.
  assert (Hne : cyclic_records ≠ []) by done.
  assert (Hno : Forall (λ r, ppid r ≠ 0) cyclic_records)
    by (repeat constructor; done).
  split; [by split|].
  exact (main_without_top_level_records 0 cyclic_records Hne Hno).
Defined.

End ProcessTreeFacts.


(* ===================================================================== *)
(** * Properties of the scan of /proc                                     *)
(* ===================================================================== *)

Module ProcScanFacts.
Import ProcessTree ProcScan.

(** ** Characters *)

Lemma isdigit_not_space c : isdigit c = true → isspace c = false.
Proof. destruct c as [[] [] [] [] [] [] [] []]; done. Qed.

Lemma isdigit_not_sign c :
  isdigit c = true → Ascii.eqb c "-" = false ∧ Ascii.eqb c "+" = false.
Proof. destruct c as [[] [] [] [] [] [] [] []]; done. Qed.

Lemma not_space_not_newline c : isspace c = false → Ascii.eqb c "010" = false.
Proof. destruct c as [[] [] [] [] [] [] [] []]; done. Qed.

Lemma isdigit_digit c : isdigit c = true → 0 ≤ digit c ≤ 9.
Proof. destruct c as [[] [] [] [] [] [] [] []]; done. Qed.

(** ** Strings *)

Lemma string_app_cons c s t : String c s +:+ t = String c (s +:+ t).
Proof. reflexivity. Qed.

Lemma string_app_nil t : EmptyString +:+ t = t.
Proof. reflexivity. Qed.

Lemma string_app_nil_r s : s +:+ EmptyString = s.
Proof. induction s as [|c s IH]; [done|]. by rewrite string_app_cons, IH. Qed.

Lemma string_app_assoc s t u : (s +:+ t) +:+ u = s +:+ (t +:+ u).
Proof. induction s as [|c s IH]; [done|]. by rewrite !string_app_cons, IH. Qed.

(** ** Reading past a prefix *)

Lemma read_digits_app acc ds tail :
  all_of isdigit ds = true →
  read_digits acc (ds +:+ tail) = read_digits (read_digits acc ds).1 tail.
Proof.
  revert acc. induction ds as [|c ds IH]; intros acc; [done|].
  rewrite string_app_cons. simpl. intros [Hc Hds]%andb_true_iff.
  rewrite Hc. by apply IH.
Qed.

Lemma read_digits_stop acc tail :
  starts_with isdigit tail = false → read_digits acc tail = (acc, tail).
Proof. destruct tail as [|c tail]; simpl; [done|]. by intros ->. Qed.

Lemma read_digits_nonneg acc s : 0 ≤ acc → 0 ≤ (read_digits acc s).1.
Proof.
  revert acc. induction s as [|c s IH]; intros acc Hacc; simpl; [done|].
  destruct (isdigit c) eqn:Hc; [|done].
  apply IH. pose proof (isdigit_digit c Hc). lia.
Qed.

Lemma number_nonneg ds : 0 ≤ number ds.
Proof. by apply read_digits_nonneg. Qed.

Lemma read_token_app tok tail :
  word tok →
  read_token (tok +:+ tail) = ((tok +:+ (read_token tail).1), (read_token tail).2).
Proof.
  unfold word. induction tok as [|c tok IH]; simpl.
  - intros _. rewrite string_app_nil. by destruct (read_token tail).
  - intros [Hc Htok]%andb_true_iff. apply negb_true_iff in Hc.
    rewrite string_app_cons. simpl. rewrite Hc, (IH Htok). done.
Qed.

Lemma getline_app pre rest :
  all_of (λ c, negb (Ascii.eqb c "010")) pre = true →
  getline (pre +:+ rest) = pre +:+ getline rest.
Proof.
  induction pre as [|c pre IH]; simpl; [done|].
  intros [Hc Hpre]%andb_true_iff. apply negb_true_iff in Hc.
  rewrite !string_app_cons. simpl. by rewrite Hc, (IH Hpre).
Qed.

Lemma all_of_impl (p q : ascii → bool) s :
  (∀ c, p c = true → q c = true) → all_of p s = true → all_of q s = true.
Proof.
  intros Hpq. induction s as [|c s IH]; simpl; [done|].
  intros [Hc Hs]%andb_true_iff. by rewrite (Hpq _ Hc), (IH Hs).
Qed.

Lemma digits_no_newline ds :
  all_of isdigit ds = true → all_of (λ c, negb (Ascii.eqb c "010")) ds = true.
Proof.
  apply all_of_impl. intros c Hc%isdigit_not_space%not_space_not_newline.
  by rewrite Hc.
Qed.

Lemma word_no_newline s :
  word s → all_of (λ c, negb (Ascii.eqb c "010")) s = true.
Proof.
  apply all_of_impl. intros c Hc%negb_true_iff%not_space_not_newline.
  by rewrite Hc.
Qed.

Lemma starts_with_getline rest :
  starts_with isdigit rest = false → starts_with isdigit (getline rest) = false.
Proof.
  destruct rest as [|c rest]; simpl; [done|].
  by destruct (Ascii.eqb c "010").
Qed.

(** ** Extracting a field *)

Lemma read_int_field ds tail :
  ds ≠ EmptyString → all_of isdigit ds = true → starts_with isdigit tail = false →
  read_int (ds +:+ tail) = (Some (number ds), tail).
Proof.
  intros Hne Hds Htail. destruct ds as [|c ds]; [done|].
  pose proof Hds as [Hc _]%andb_true_iff.
  destruct (isdigit_not_sign c Hc) as [Hm Hp].
  unfold read_int. rewrite string_app_cons, Hm, Hp. simpl starts_with. rewrite Hc.
  rewrite <- string_app_cons, read_digits_app, read_digits_stop by done. done.
Qed.

Lemma sentry_field ds tail :
  ds ≠ EmptyString → all_of isdigit ds = true →
  sentry {| buffer := ds +:+ tail; failed := false |} = Some (ds +:+ tail).
Proof.
  intros Hne Hds. destruct ds as [|c ds]; [done|].
  pose proof Hds as [Hc%isdigit_not_space _]%andb_true_iff.
  unfold sentry. simpl. rewrite string_app_cons. simpl. by rewrite Hc.
Qed.

Lemma extract_int_field ds tail val :
  field ds → starts_with isdigit tail = false →
  extract_int {| buffer := ds +:+ tail; failed := false |} val
  = ({| buffer := tail; failed := false |}, Some (number ds)).
Proof.
  intros (Hne & Hds & Hmax) Htail. unfold extract_int.
  rewrite sentry_field, read_int_field by done.
  pose proof (number_nonneg ds).
  rewrite (proj2 (Z.ltb_ge _ _)) by (unfold INT_MIN; lia).
  by rewrite (proj2 (Z.ltb_ge _ _)) by lia.
Qed.

Lemma extract_int_after_space c s val :
  isspace c = true →
  sentry {| buffer := s; failed := false |} ≠ None →
  extract_int {| buffer := String c s; failed := false |} val
  = extract_int {| buffer := s; failed := false |} val.
Proof.
  intros Hc Hs. unfold extract_int, sentry in *. simpl in *. rewrite Hc.
  by destruct (skipws s).
Qed.

Lemma stoi_field ds : field ds → stoi ds = Some (number ds).
Proof.
  intros (Hne & Hds & Hmax). unfold stoi.
  assert (skipws ds = ds) as ->.
  { destruct ds as [|c ds]; [done|]. simpl.
    pose proof Hds as [Hc%isdigit_not_space _]%andb_true_iff. by rewrite Hc. }
  rewrite <- (string_app_nil_r ds) at 1. rewrite read_int_field by done.
  pose proof (number_nonneg ds). rewrite decide_True; [done|].
  unfold INT_MIN. lia.
Qed.

Lemma stoi_too_large ds :
  all_of isdigit ds = true → INT_MAX < number ds → stoi ds = None.
Proof.
  intros Hds Hlarge. unfold stoi.
  assert (ds ≠ EmptyString) as Hne by (intros ->; by cbv in Hlarge).
  assert (skipws ds = ds) as ->.
  { destruct ds as [|c ds]; [done|]. simpl.
    pose proof Hds as [Hc%isdigit_not_space _]%andb_true_iff. by rewrite Hc. }
  rewrite <- (string_app_nil_r ds) at 1. rewrite read_int_field by done.
  rewrite decide_False; [done|]. lia.
Qed.

Lemma stoi_digits ds v :
  all_of isdigit ds = true → stoi ds = Some v → v = number ds ∧ 0 ≤ v ≤ INT_MAX.
Proof.
  intros Hds Hv. destruct (decide (ds = EmptyString)) as [-> | Hne]; [done|].
  destruct (decide (number ds ≤ INT_MAX)) as [Hle | Hgt].
  - rewrite stoi_field in Hv by done. injection Hv as <-.
    pose proof (number_nonneg ds). done.
  - rewrite stoi_too_large in Hv by (done || lia). done.
Qed.

Lemma skipws_blank s : all_of isspace s = true → skipws s = EmptyString.
Proof.
  induction s as [|c s IH]; simpl; [done|].
  intros [Hc Hs]%andb_true_iff. rewrite Hc. by apply IH.
Qed.

Lemma skipws_word_head w c t :
  word w → isspace c = false → skipws (w +:+ String c t) = w +:+ String c t.
Proof.
  intros Hw Hc. destruct w as [|a w]; simpl.
  - rewrite string_app_nil. simpl. by rewrite Hc.
  - apply andb_true_iff in Hw as [Ha%negb_true_iff _].
    rewrite string_app_cons. simpl. by rewrite Ha.
Qed.

(** A word that ends with a visible character and is followed by white
    space or by nothing is read as one token. *)
Lemma extract_string_token w c tail str :
  word w → isspace c = false → starts_with (λ a, negb (isspace a)) tail = false →
  extract_string {| buffer := w +:+ String c tail; failed := false |} str
  = ({| buffer := tail; failed := false |}, w +:+ String c EmptyString).
Proof.
  intros Hw Hc Htail. unfold extract_string, sentry. simpl.
  rewrite skipws_word_head by done.
  assert (read_token (w +:+ String c tail) = (w +:+ String c EmptyString, tail)) as Htok.
  { rewrite read_token_app by done. simpl. rewrite Hc.
    destruct tail as [|a tail]; simpl; [done|]. simpl in Htail.
    apply negb_false_iff in Htail. by rewrite Htail. }
  destruct (w +:+ String c tail) as [|a b] eqn:E.
  - destruct w; discriminate.
  - by rewrite Htok.
Qed.

Lemma extract_char_after_space c rest val :
  isspace c = false →
  extract_char {| buffer := String " " (String c rest); failed := false |} val
  = ({| buffer := rest; failed := false |}, Some c).
Proof. intros Hc. unfold extract_char, sentry. simpl. by rewrite Hc. Qed.

Lemma extract_int_spaced_field ds tail val :
  field ds → starts_with isdigit tail = false →
  extract_int {| buffer := String " " (ds +:+ tail); failed := false |} val
  = ({| buffer := tail; failed := false |}, Some (number ds)).
Proof.
  intros Hds Htail. rewrite extract_int_after_space; [by apply extract_int_field | done |].
  destruct Hds as (? & ? & ?). by rewrite sentry_field.
Qed.

(** ** The loop *)

Lemma scan_entry_other entry : numeric_dir entry = false → scan_entry entry = Skip.
Proof. intros Hn. unfold scan_entry. by rewrite Hn. Qed.

Lemma scan_entry_Push entry info :
  scan_entry entry = Push info →
  numeric_dir entry = true ∧ stoi (d_name entry) = Some (pid info) ∧ level info = 0.
Proof.
  unfold scan_entry. destruct (numeric_dir entry); [|done].
  destruct (stoi (d_name entry)) as [p|]; [|done].
  destruct (stat entry) as [contents|]; [|done].
  destruct (extract_int _ _) as [ss1 current_pid].
  destruct (extract_char _ _) as [ss2 open_paren].
  destruct (extract_string _ _) as [ss3 comm].
  destruct (extract_char _ _) as [ss4 close_paren].
  destruct (extract_int _ _) as [ss5 state].
  destruct (extract_int _ _) as [ss6 pp].
  destruct current_pid as [c|]; [|done]. case_decide; [|done].
  destruct pp as [pp|]; [|done]. by intros [= <-].
Qed.

Lemma scan_app xs ys processes :
  scan (xs ++ ys) processes
  = match scan xs processes with
    | Scanned processes' => scan ys processes'
    | Terminated => Terminated
    | Undefined => Undefined
    end.
Proof.
  revert processes. induction xs as [|x xs IH]; intros processes; simpl; [done|].
  by destruct (scan_entry x).
Qed.

Lemma scan_Scanned entries processes l :
  scan entries processes = Scanned l →
  ∃ l', l = processes ++ l'
        ∧ pid <$> l' `sublist_of` named_pids entries
        ∧ Forall (λ r, level r = 0 ∧ 0 ≤ pid r ≤ INT_MAX) l'.
Proof.
  revert processes. induction entries as [|e es IH]; intros processes; simpl.
  { intros [= <-]. exists []. by rewrite app_nil_r. }
  assert (Hskip : named_pids es `sublist_of` named_pids (e :: es)).
  { unfold named_pids. simpl.
    destruct (if numeric_dir e then stoi (d_name e) else None);
      [by apply sublist_cons | done]. }
  destruct (scan_entry e) as [|info| |] eqn:He; [| |done..].
  - intros (l' & -> & Hsub & Hall)%IH. exists l'. split; [done|]. split; [|done].
    by etrans.
  - intros (l' & -> & Hsub & Hall)%IH. exists (info :: l').
    apply scan_entry_Push in He as (Hnum & Hstoi & Hlevel).
    split; [by rewrite <- app_assoc|]. split.
    + unfold named_pids. simpl. rewrite Hnum, Hstoi. simpl. by apply sublist_skip.
    + constructor; [|done]. split; [done|].
      apply andb_true_iff in Hnum as [_ Hdigits].
      by destruct (stoi_digits _ _ Hdigits Hstoi).
Qed.

(** X10: the scan looks only at directories whose names are all digits:
    every other entry of [/proc] can be dropped from the listing, wherever
    it stands, without changing what the scan does. *)
Theorem scan_skips_other_entries
    (entries : list DirEntry) (processes : list ProcessInfo) :
  scan (filter (λ entry, numeric_dir entry) entries) processes = scan entries processes.
Proof.
  revert processes. induction entries as [|e es IH]; intros processes; [done|].
  destruct (numeric_dir e) eqn:Hn.
  - rewrite filter_cons_True by by rewrite Hn. simpl.
    destruct (scan_entry e); by rewrite ?IH.
  - rewrite filter_cons_False by (rewrite Hn; simpl; tauto). simpl.
    by rewrite scan_entry_other, IH.
Qed.

(** X11: when the scan runs to its end, the pids of the records it
    returns are numbers that names of numeric directories denote, in the
    order of the directory and each name used at most once; every pid is
    between 0 and [INT_MAX] and every [level] is 0. So the pids are
    pairwise distinct when the names denote pairwise distinct numbers. *)
Theorem scanned_pids_come_from_names
    (entries : list DirEntry) (processes : list ProcessInfo) :
  scan entries [] = Scanned processes →
  pid <$> processes `sublist_of` named_pids entries
  ∧ Forall (λ r, level r = 0 ∧ 0 ≤ pid r ≤ INT_MAX) processes
  ∧ (NoDup (named_pids entries) → NoDup (pid <$> processes)).
Proof.
  intros (l' & -> & Hsub & Hall)%scan_Scanned. simpl.
  split; [done|]. split; [done|]. intros Hnd. by eapply sublist_NoDup.
Qed.

(** The theorem at [example_proc]. *)
Lemma scanned_pids_come_from_names_example :
  scan example_proc []
    = Scanned [ {| pid := 1; ppid := 1; name := "systemd)"; level := 0 |};
                {| pid := 1234; ppid := 1234; name := "bash)"; level := 0 |} ]
  ∧ named_pids example_proc = [1; 1234]
  ∧ ([1; 1234] `sublist_of` named_pids example_proc
     ∧ Forall (λ r, level r = 0 ∧ 0 ≤ pid r ≤ INT_MAX)
         [ {| pid := 1; ppid := 1; name := "systemd)"; level := 0 |};
           {| pid := 1234; ppid := 1234; name := "bash)"; level := 0 |} ]
     ∧ (NoDup (named_pids example_proc) → NoDup [1; 1234])).
Proof.
  split; [reflexivity|]. split; [reflexivity|].
  exact (scanned_pids_come_from_names example_proc _ eq_refl).
Defined.

(** X12: on a [stat] line of the kernel's form, [pid (comm) state ppid
    pgrp ...] with a [comm] without white space, the extractions do not
    read the fields their variables are named after: [comm] receives the
    name together with the closing parenthesis, [close_paren] the state
    letter, [state] the parent pid, and [ppid] the number after it, the
    process group. The record that is pushed has that name and that
    [ppid]. *)
Theorem stat_line_fields (entry : DirEntry)
    (P comm PP G rest : string) (st : ascii) :
  field P → word comm → isspace st = false → field PP → field G →
  starts_with isdigit rest = false →
  is_dir entry = true → d_name entry = P →
  stat entry
  = Some (P +:+ " (" +:+ comm +:+ ") " +:+ String st (" " +:+ PP +:+ " " +:+ G +:+ rest)) →
  scan_entry entry
  = Push {| pid := number P; ppid := number G; name := comm +:+ ")"; level := 0 |}.
Proof.
  intros HP Hcomm Hst HPP HG Hrest Hdir Hname Hstat.
  assert (Hline : getline (P +:+ " (" +:+ comm +:+ ") " +:+
                    String st (" " +:+ PP +:+ " " +:+ G +:+ rest))
    = P +:+ String " " (String "(" (comm +:+ String ")" (String " " (String st
        (String " " (PP +:+ String " " (G +:+ getline rest)))))))).
  { rewrite !string_app_cons, !string_app_nil.
    rewrite getline_app by (apply digits_no_newline, HP). f_equal. simpl. do 2 f_equal.
    rewrite getline_app by by apply word_no_newline. f_equal. simpl.
    rewrite (not_space_not_newline st Hst). do 4 f_equal.
    rewrite getline_app by (apply digits_no_newline, HPP). f_equal. simpl. f_equal.
    by rewrite getline_app by (apply digits_no_newline, HG). }
  unfold scan_entry, numeric_dir.
  rewrite Hdir, Hname, (proj1 (proj2 HP)), (stoi_field P HP), Hstat. cbv beta iota zeta.
  rewrite Hline.
  rewrite extract_int_field by done. cbv beta iota zeta.
  change (extract_char {| buffer := String " " (String "(" ?x); failed := false |} None)
    with ({| buffer := x; failed := false |}, Some "("%char). cbv beta iota zeta.
  rewrite extract_string_token by done. cbv beta iota zeta.
  rewrite extract_char_after_space by done. cbv beta iota zeta.
  rewrite extract_int_spaced_field by done. cbv beta iota zeta.
  rewrite extract_int_spaced_field by (done || by apply starts_with_getline).
  cbv beta iota zeta. by rewrite decide_True.
Qed.

(** The theorem at a line of a shell with pid 1234, parent 1 and process
    group 1234. *)
Lemma stat_line_fields_bash :
  (field "1234" ∧ word "bash" ∧ isspace "S" = false ∧ field "1" ∧ field "1234"
   ∧ starts_with isdigit " 1234 34816 1300 4194304" = false)
  ∧ scan_entry {| is_dir := true; d_name := "1234";
                  stat := Some "1234 (bash) S 1 1234 1234 34816 1300 4194304" |}
    = Push {| pid := 1234; ppid := 1234; name := "bash)"; level := 0 |}.
Proof.
  assert (H1234 : field "1234") by (by repeat split).
  assert (H1 : field "1") by (by repeat split).
  split; [by repeat split|].
  exact (stat_line_fields
           {| is_dir := true; d_name := "1234";
              stat := Some "1234 (bash) S 1 1234 1234 34816 1300 4194304" |}
           "1234" "bash" "1" "1234" " 1234 34816 1300 4194304" "S"
           H1234 eq_refl eq_refl H1 H1234 eq_refl eq_refl eq_refl eq_refl).
Defined.

(** X13: a numeric directory whose name denotes a number above [INT_MAX]
    makes [std::stoi] throw; nothing catches the exception, so the scan
    does not return once it reaches that entry, whatever comes after it. *)
Theorem scan_aborts_on_large_name
    (before after : list DirEntry) (entry : DirEntry)
    (processes processes' : list ProcessInfo) :
  numeric_dir entry = true → INT_MAX < number (d_name entry) →
  scan before processes = Scanned processes' →
  scan (before ++ entry :: after) processes = Terminated
  ∧ source_of (Some (before ++ entry :: after)) = None.
Proof.
  intros Hnum Hlarge Hbefore.
  assert (Hentry : scan_entry entry = Throw).
  { unfold scan_entry. rewrite Hnum.
    apply andb_true_iff in Hnum as [_ Hdigits]. by rewrite stoi_too_large. }
  assert (Hscan : ∀ ps ps', scan before ps = Scanned ps' →
                  scan (before ++ entry :: after) ps = Terminated).
  { intros ps ps' Hps. rewrite scan_app, Hps. simpl. by rewrite Hentry. }
  split; [by eapply Hscan|].
  unfold source_of. rewrite scan_app.
  destruct (scan before []) as [ps| |] eqn:E; [|done..].
  simpl. by rewrite Hentry.
Qed.

(** The theorem at a directory named 4294967296 after the first entry of
    [example_proc]. *)
Lemma scan_aborts_on_large_name_example :
  (numeric_dir {| is_dir := true; d_name := "4294967296"; stat := None |} = true
   ∧ INT_MAX < number "4294967296"
   ∧ scan (take 1 example_proc) []
     = Scanned [ {| pid := 1; ppid := 1; name := "systemd)"; level := 0 |} ])
  ∧ scan (take 1 example_proc
          ++ {| is_dir := true; d_name := "4294967296"; stat := None |}
          :: drop 1 example_proc) [] = Terminated
  ∧ source_of (Some (take 1 example_proc
          ++ {| is_dir := true; d_name := "4294967296"; stat := None |}
          :: drop 1 example_proc)) = None.
Proof.
  assert (Hlarge : INT_MAX < number "4294967296") by done.
  split; [by repeat split|].
  exact (scan_aborts_on_large_name (take 1 example_proc) (drop 1 example_proc)
           {| is_dir := true; d_name := "4294967296"; stat := None |}
           [] _ eq_refl Hlarge eq_refl).
Defined.

(** X14: when the [stat] file of a numeric directory opens but its first
    line is empty or blank, no extraction assigns [current_pid], and the
    test [current_pid == pid] reads it uninitialized: the entry is not
    simply skipped. *)
Theorem blank_stat_line_reads_uninitialized
    (entry : DirEntry) (contents : string) :
  is_dir entry = true → field (d_name entry) →
  stat entry = Some contents → all_of isspace (getline contents) = true →
  scan_entry entry = ReadUninitialized.
Proof.
  intros Hdir Hname Hstat Hblank. unfold scan_entry, numeric_dir.
  rewrite Hdir, (proj1 (proj2 Hname)), (stoi_field _ Hname), Hstat.
  cbv beta iota zeta.
  assert (extract_int {| buffer := getline contents; failed := false |} None
          = ({| buffer := getline contents; failed := true |}, None)) as ->.
  { unfold extract_int, sentry. simpl. by rewrite skipws_blank. }
  cbv beta iota zeta.
  destruct (extract_char _ _) as [ss2 open_paren].
  destruct (extract_string _ _) as [ss3 comm].
  destruct (extract_char _ _) as [ss4 close_paren].
  destruct (extract_int _ _) as [ss5 state].
  by destruct (extract_int _ _) as [ss6 pp].
Qed.

(** The theorem at an empty [stat] file. *)
Lemma blank_stat_line_reads_uninitialized_example :
  (field "4321" ∧ all_of isspace (getline "") = true)
  ∧ scan_entry {| is_dir := true; d_name := "4321"; stat := Some "" |}
    = ReadUninitialized.
Proof.
  assert (Hname : field "4321") by (by repeat split).
  split; [by split|].
  exact (blank_stat_line_reads_uninitialized
           {| is_dir := true; d_name := "4321"; stat := Some "" |} ""
           eq_refl Hname eq_refl eq_refl).
Defined.

(** X15: when the [comm] of a [stat] line has a space in it, as in
    [(Web Content)], and its second word goes on after its first character
    with something that starts no number, the extraction into [state]
    fails, [ppid] is never assigned, and the record is built from an
    uninitialized [ppid]. *)
Theorem comm_with_space_reads_uninitialized (entry : DirEntry)
    (P w rest : string) (c d : ascii) :
  field P → word w → w ≠ EmptyString →
  isspace c = false →
  isspace d = false → isdigit d = false → d ≠ "-"%char → d ≠ "+"%char →
  is_dir entry = true → d_name entry = P →
  stat entry = Some (P +:+ " (" +:+ w +:+ " " +:+ String c (String d rest)) →
  scan_entry entry = ReadUninitialized.
Proof.
  intros HP Hw Hne Hc Hd Hdd Hminus Hplus Hdir Hname Hstat.
  assert (Hline : getline (P +:+ " (" +:+ w +:+ " " +:+ String c (String d rest))
    = P +:+ String " " (String "(" (w +:+ String " " (String c (String d (getline rest)))))).
  { rewrite !string_app_cons, !string_app_nil.
    rewrite getline_app by (apply digits_no_newline, HP). f_equal. simpl. do 2 f_equal.
    rewrite getline_app by by apply word_no_newline. f_equal. simpl.
    by rewrite (not_space_not_newline c Hc), (not_space_not_newline d Hd). }
  assert (∃ a w', w = w' +:+ String a EmptyString ∧ word w' ∧ isspace a = false)
    as (a & w' & -> & Hw' & Ha).
  { clear -Hw Hne. induction w as [|x w IH]; [done|].
    apply andb_true_iff in Hw as [Hx%negb_true_iff Hw].
    destruct w as [|y w].
    - exists x, EmptyString. by repeat split.
    - destruct (IH Hw) as (a & w' & Heq & Hw' & Ha); [done|].
      exists a, (String x w'). rewrite string_app_cons, <- Heq.
      repeat split; [|done]. unfold word. simpl. by rewrite Hx. }
  unfold scan_entry, numeric_dir.
  rewrite Hdir, Hname, (proj1 (proj2 HP)), (stoi_field P HP), Hstat. cbv beta iota zeta.
  rewrite Hline.
  rewrite extract_int_field by done. cbv beta iota zeta.
  change (extract_char {| buffer := String " " (String "(" ?x); failed := false |} None)
    with ({| buffer := x; failed := false |}, Some "("%char). cbv beta iota zeta.
  rewrite string_app_assoc, string_app_cons, string_app_nil.
  rewrite extract_string_token by (done || by simpl).
  cbv beta iota zeta.
  rewrite extract_char_after_space by done. cbv beta iota zeta.
  assert (extract_int {| buffer := String d (getline rest); failed := false |} None
          = ({| buffer := String d (getline rest); failed := true |}, Some 0)) as ->.
  { unfold extract_int, sentry, read_int. simpl. rewrite Hd.
    rewrite (proj2 (Ascii.eqb_neq _ _) Hminus), (proj2 (Ascii.eqb_neq _ _) Hplus).
    simpl. by rewrite Hdd. }
  cbv beta iota zeta.
  change (extract_int {| buffer := ?b; failed := true |} None)
    with ({| buffer := b; failed := true |}, @None Z).
  cbv beta iota zeta. by rewrite decide_True.
Qed.

(** The theorem at a line of a process named "Web Content". *)
Lemma comm_with_space_reads_uninitialized_example :
  (field "9" ∧ word "Web" ∧ isspace "C" = false ∧ isspace "o" = false
   ∧ isdigit "o" = false)
  ∧ scan_entry {| is_dir := true; d_name := "9";
                  stat := Some "9 (Web Content) S 1 9 9 0 -1" |}
    = ReadUninitialized.
Proof.
  assert (H9 : field "9") by (by repeat split).
  split; [by repeat split|].
  exact (comm_with_space_reads_uninitialized
           {| is_dir := true; d_name := "9";
              stat := Some "9 (Web Content) S 1 9 9 0 -1" |}
           "9" "Web" "ntent) S 1 9 9 0 -1" "C" "o"
           H9 eq_refl (λ H, match H with end) eq_refl eq_refl eq_refl
           (λ H, ltac:(discriminate H)) (λ H, ltac:(discriminate H))
           eq_refl eq_refl eq_refl).
Defined.

End ProcScanFacts.
